(** * SkateHubba real-time gateway: room registry and socket authentication

    A shallow embedding of [server/socket/rooms.ts] (the room manager) and of
    the socket authentication middleware that follows it in the same source
    file, with the properties of the gateway stated and proved over it.

    Conventions of the embedding:
    - TypeScript types are erased at run time, so a [RoomType] is a plain
      string here; the four members of the union are singled out by
      [is_room_type].
    - JavaScript strings are modelled by [string]; the only character the
      code inspects is the separator [":"].
    - The module-level [Map]s are finite maps ([gmap]), the [Set]s are finite
      sets ([gset]). JavaScript iterates both in insertion order, which these
      do not record: every loop over a map or a set is therefore embedded
      for an arbitrary iteration order ([..._in]), and shown not to depend
      on it ([..._any_order]).
    - Mutation of the module-level state and of [socket.data] is explicit
      state passing: an operation takes the state it reads and, when it
      writes, returns the state it leaves behind. The functions of module
      [Rooms] are the calls run from start to end with nothing in between;
      module [Gateway] cuts them at their [await]s and lets calls overlap.
    - [Date.now()] and [new Date()] are an explicit [now] argument, in
      milliseconds. *)

From stdpp Require Import gmap strings list fin_maps fin_sets.
From Stdlib Require Import Ascii ZArith Lia.

Local Open Scope Z_scope.
Local Open Scope nat_scope.

(** ** JavaScript string primitives used by the room keys *)

Module JsString.

Definition colon : ascii := ":"%char.

(** [s.split(sep)] for a one-character separator: the list of the maximal
    separator-free pieces, never empty. *)
Fixpoint split (sep : ascii) (s : string) : list string :=
  match s with
  | EmptyString => [EmptyString]
  | String c s' =>
      if decide (c = sep) then EmptyString :: split sep s'
      else match split sep s' with
           | [] => [String c EmptyString]
           | piece :: pieces => String c piece :: pieces
           end
  end.

(** [pieces.join(sep)]. *)
Fixpoint join (sep : ascii) (pieces : list string) : string :=
  match pieces with
  | [] => EmptyString
  | [piece] => piece
  | piece :: rest => piece +:+ String sep (join sep rest)
  end.

(** [!s] on a string: only the empty string is falsy. *)
Definition falsy (s : string) : bool :=
  match s with EmptyString => true | String _ _ => false end.

(** The separator does not occur in the string. *)
Fixpoint free_of (sep : ascii) (s : string) : bool :=
  match s with
  | EmptyString => true
  | String c s' => if decide (c = sep) then false else free_of sep s'
  end.

End JsString.

(** ** Room registry ([server/socket/rooms.ts]) *)

Module Rooms.
Import JsString.

(** [RoomType] is a union of four string literals; at run time it is a
    string. *)
Definition RoomType := string.

Definition is_room_type (t : RoomType) : bool :=
  bool_decide (t = "battle") || bool_decide (t = "game")
  || bool_decide (t = "spot") || bool_decide (t = "global").

(** [RoomInfo]; the fields [type] and [id] of the source are [room_type]
    and [room_id] here. *)
Record RoomInfo := mkRoomInfo {
  room_type : RoomType;
  room_id : string;
  members : gset string;
  createdAt : Z
}.

(** [SocketData], the value of [socket.data]; its field [rooms] is
    [sd_rooms] here, apart from the module-level [rooms] map. *)
Record SocketData := mkSocketData {
  userId : string;
  odv : string;
  firebaseUid : string;
  roles : list string;
  connectedAt : Z;
  sd_rooms : gset string
}.

Definition set_members (ms : gset string) (room : RoomInfo) : RoomInfo :=
  {| room_type := room_type room; room_id := room_id room;
     members := ms; createdAt := createdAt room |}.

Definition set_sd_rooms (ks : gset string) (data : SocketData) : SocketData :=
  {| userId := userId data; odv := odv data; firebaseUid := firebaseUid data;
     roles := roles data; connectedAt := connectedAt data; sd_rooms := ks |}.

(** A room size limit: a number or [Infinity]. *)
Inductive Limit := Finite (n : nat) | Infinity.

(** [ROOM_LIMITS[type]]: [None] is JavaScript's [undefined], the value of a
    key the table does not have. *)
Definition ROOM_LIMITS (type : RoomType) : option Limit :=
  if decide (type = "battle") then Some (Finite 2)
  else if decide (type = "game") then Some (Finite 8)
  else if decide (type = "spot") then Some (Finite 100)
  else if decide (type = "global") then Some Infinity
  else None.

(** [size >= limit] as JavaScript evaluates it; a comparison with
    [undefined] (and with any inherited non-numeric property) is false. *)
Definition size_ge_limit (size : nat) (limit : option Limit) : bool :=
  match limit with
  | Some (Finite n) => bool_decide (n ≤ size)
  | Some Infinity => false
  | None => false
  end.

Definition getRoomId (type : RoomType) (id : string) : string :=
  type +:+ String colon id.

Record ParsedRoomId := mkParsed { p_type : RoomType; p_id : string }.

Definition parseRoomId (roomId : string) : option ParsedRoomId :=
  match split colon roomId with
  | [] => None
  | type :: rest =>
      let id := join colon rest in
      if falsy type || falsy id then None
      else Some {| p_type := type; p_id := id |}
  end.

(** The module-level [rooms] map, keyed by room id. *)
Abbreviation registry := (gmap string RoomInfo).

Definition getOrCreateRoom (now : Z) (type : RoomType) (id : string)
    (rooms : registry) : RoomInfo * registry :=
  let roomId := getRoomId type id in
  match rooms !! roomId with
  | Some room => (room, rooms)
  | None =>
      let room := {| room_type := type; room_id := id;
                     members := ∅; createdAt := now |} in
      (room, <[roomId := room]> rooms)
  end.

(** One iteration of the loop of [cleanupEmptyRooms] on the entry
    [(roomId, room)]: the entry is deleted when its member set is empty. *)
Definition cleanup_step (rooms : registry) (entry : string * RoomInfo)
    : registry :=
  if decide (size (members entry.2) = 0) then delete entry.1 rooms else rooms.

(** [cleanupEmptyRooms] for a given iteration order of [rooms.entries()]
    (JavaScript iterates in insertion order, which a [gmap] does not
    record). *)
Definition cleanupEmptyRooms_in (order : list (string * RoomInfo))
    (rooms : registry) : registry :=
  foldl cleanup_step rooms order.

Definition cleanupEmptyRooms (rooms : registry) : registry :=
  cleanupEmptyRooms_in (map_to_list rooms) rooms.

(** [joinRoom]. The result is the returned boolean, [socket.data] and the
    registry after the call. The room object is shared between the local
    [room] and the map, so the update of its member set is written back
    under its key. Logging, the ["error"] event of the full branch and
    socket.io's own subscription ([socket.join]) do not touch this state. *)
Definition joinRoom (now : Z) (data : SocketData) (type : RoomType)
    (id : string) (rooms : registry) : bool * SocketData * registry :=
  let roomId := getRoomId type id in
  let '(room, rooms) := getOrCreateRoom now type id rooms in
  if size_ge_limit (size (members room)) (ROOM_LIMITS type) then
    (false, data, rooms)
  else
    let room := set_members ({[odv data]} ∪ members room) room in
    let data := set_sd_rooms ({[roomId]} ∪ sd_rooms data) data in
    (true, data, <[roomId := room]> rooms).

Definition leaveRoom (data : SocketData) (type : RoomType) (id : string)
    (rooms : registry) : SocketData * registry :=
  let roomId := getRoomId type id in
  let rooms :=
    match rooms !! roomId with
    | Some room =>
        <[roomId := set_members (members room ∖ {[odv data]}) room]> rooms
    | None => rooms
    end in
  (set_sd_rooms (sd_rooms data ∖ {[roomId]}) data, rooms).

(** One iteration of the loop of [leaveAllRooms]. The loop runs over the
    live set [data.rooms] while [leaveRoom] deletes from it: a key deleted
    before the iteration reaches it is not visited. *)
Definition leaveAllRooms_step (acc : SocketData * registry)
    (roomId : string) : SocketData * registry :=
  let '(data, rooms) := acc in
  if decide (roomId ∈ sd_rooms data) then
    match parseRoomId roomId with
    | Some parsed => leaveRoom data (p_type parsed) (p_id parsed) rooms
    | None => (data, rooms)
    end
  else (data, rooms).

(** [leaveAllRooms] for a given iteration order of the keys of
    [data.rooms] (JavaScript iterates in insertion order, which a [gset]
    does not record). *)
Definition leaveAllRooms_in (order : list string) (data : SocketData)
    (rooms : registry) : SocketData * registry :=
  foldl leaveAllRooms_step (data, rooms) order.

Definition leaveAllRooms (data : SocketData) (rooms : registry)
    : SocketData * registry :=
  leaveAllRooms_in (elements (sd_rooms data)) data rooms.

Definition getRoomInfo (type : RoomType) (id : string) (rooms : registry)
    : option RoomInfo :=
  rooms !! getRoomId type id.

(** The four declared counters of the [byType] object of [getRoomStats]. *)
Record ByType := mkByType {
  battle : nat;
  game : nat;
  spot : nat;
  global : nat
}.

Record RoomStats := mkRoomStats {
  totalRooms : nat;
  totalMembers : nat;
  byType : ByType
}.

(** [byType[type]++] seen on the four declared counters: a key that is
    none of them creates or changes another property of the object and
    leaves these four alone. *)
Definition incr_byType (type : RoomType) (b : ByType) : ByType :=
  if decide (type = "battle") then
    {| battle := S (battle b); game := game b; spot := spot b; global := global b |}
  else if decide (type = "game") then
    {| battle := battle b; game := S (game b); spot := spot b; global := global b |}
  else if decide (type = "spot") then
    {| battle := battle b; game := game b; spot := S (spot b); global := global b |}
  else if decide (type = "global") then
    {| battle := battle b; game := game b; spot := spot b; global := S (global b) |}
  else b.

(** One iteration of the loop of [getRoomStats]; the accumulator is
    [(byType, totalMembers)]. *)
Definition stats_step (acc : ByType * nat) (room : RoomInfo) : ByType * nat :=
  (incr_byType (room_type room) acc.1, acc.2 + size (members room)).

(** [getRoomStats] for a given iteration order of [rooms.values()]. It
    only reads the registry ([rooms.values()] and [rooms.size]); it returns
    the snapshot and no new registry. *)
Definition getRoomStats_in (order : list RoomInfo) (rooms : registry)
    : RoomStats :=
  let acc := foldl stats_step
               ({| battle := 0; game := 0; spot := 0; global := 0 |}, 0)
               order in
  {| totalRooms := size rooms; totalMembers := acc.2; byType := acc.1 |}.

Definition getRoomStats (rooms : registry) : RoomStats :=
  getRoomStats_in (map_to_list rooms).*2 rooms.

(** [getRoomsByType] for a given order of [rooms.values()]:
    [Array.from(...).filter((r) => r.type === type)]. *)
Definition getRoomsByType_in (order : list RoomInfo) (type : RoomType)
    : list RoomInfo :=
  filter (λ r, room_type r = type) order.

Definition getRoomsByType (type : RoomType) (rooms : registry)
    : list RoomInfo :=
  getRoomsByType_in (map_to_list rooms).*2 type.

(** The name of the socket.io room [sendToUser] emits to. *)
Definition userRoom (odv : string) : string := "user:" +:+ odv.

End Rooms.

(** ** Socket authentication middleware (second part of the source file) *)

Module Auth.
Import Rooms.

Record RateEntry := mkRateEntry { count : nat; resetAt : Z }.

(** The module-level [connectionAttempts] map, keyed by IP address. *)
Abbreviation attempts := (gmap string RateEntry).

Definition MAX_CONNECTIONS_PER_MINUTE : nat := 10.
Definition RATE_LIMIT_WINDOW_MS : Z := 60 * 1000.

(** One iteration of the loop of [cleanupRateLimits] on the entry
    [(ip, data)]. *)
Definition rate_cleanup_step (now : Z) (tbl : attempts)
    (entry : string * RateEntry) : attempts :=
  if decide (now > resetAt entry.2)%Z then delete entry.1 tbl else tbl.

(** [cleanupRateLimits] for a given iteration order of the entries. *)
Definition cleanupRateLimits_in (order : list (string * RateEntry))
    (now : Z) (tbl : attempts) : attempts :=
  foldl (rate_cleanup_step now) tbl order.

Definition cleanupRateLimits (now : Z) (tbl : attempts) : attempts :=
  cleanupRateLimits_in (map_to_list tbl) now tbl.

(** [checkRateLimit]: the returned boolean and the table after the call.
    [existing.count++] mutates the entry stored in the map. *)
Definition checkRateLimit (now : Z) (ip : string) (tbl : attempts)
    : bool * attempts :=
  let fresh := {| count := 1; resetAt := (now + RATE_LIMIT_WINDOW_MS)%Z |} in
  match tbl !! ip with
  | None => (true, <[ip := fresh]> tbl)
  | Some existing =>
      if decide (now > resetAt existing)%Z then (true, <[ip := fresh]> tbl)
      else if decide (MAX_CONNECTIONS_PER_MINUTE ≤ count existing) then
        (false, tbl)
      else
        (true, <[ip := {| count := S (count existing);
                          resetAt := resetAt existing |}]> tbl)
  end.

(** The value found at [socket.handshake.auth?.token]. *)
Inductive JsValue :=
| JsUndefined
| JsStr (s : string)
| JsOther (truthy : bool).

(** What the middleware reads of a decoded Firebase token: the uid and the
    truthiness of the [admin] custom claim. *)
Record DecodedIdToken := mkDecoded { uid : string; admin : bool }.

(** What the middleware reads of a user row. *)
Record User := mkUser { user_id : string; isActive : bool }.

(** Outcome of awaiting [AuthService.findUserByFirebaseUid]. *)
Inductive Lookup :=
| LookupThrows
| LookupNone
| LookupFound (user : User).

(** [next()] with the [socket.data] that was attached, or [next(new
    Error(code))], in which case [socket.data] is never assigned. *)
Inductive AuthResult :=
| Accepted (data : SocketData)
| Rejected (code : string).

Record Handshake := mkHandshake { address : string; token : JsValue }.

Section Middleware.

(** The two external capabilities. [verifyIdToken] answers [None] when the
    Firebase call rejects. *)
Variable verifyIdToken : string → option DecodedIdToken.
Variable findUserByFirebaseUid : string → Lookup.

Definition socketAuthMiddleware (now connected : Z) (handshake : Handshake)
    (tbl : attempts) : AuthResult * attempts :=
  let ip := address handshake in
  let '(allowed, tbl) := checkRateLimit now ip tbl in
  if negb allowed then (Rejected "rate_limit_exceeded", tbl)
  else
    match token handshake with
    | JsUndefined | JsOther _ => (Rejected "authentication_required", tbl)
    | JsStr tok =>
        if JsString.falsy tok then (Rejected "authentication_required", tbl)
        else
          match verifyIdToken tok with
          | None => (Rejected "invalid_token", tbl)
          | Some decoded =>
              match findUserByFirebaseUid (uid decoded) with
              | LookupThrows => (Rejected "authentication_failed", tbl)
              | LookupNone => (Rejected "user_not_found", tbl)
              | LookupFound user =>
                  if negb (isActive user) then
                    (Rejected "account_inactive", tbl)
                  else
                    let roles := if admin decoded then ["admin"] else [] in
                    (Accepted {| userId := user_id user;
                                 odv := user_id user;
                                 firebaseUid := uid decoded;
                                 roles := roles;
                                 connectedAt := connected;
                                 sd_rooms := ∅ |}, tbl)
              end
          end
    end.

End Middleware.

(** A run of connection attempts through the middleware, oldest first;
    each attempt comes with the time it arrives at. *)
Fixpoint connect_all (verifyIdToken : string → option DecodedIdToken)
    (findUserByFirebaseUid : string → Lookup)
    (arrivals : list (Z * Handshake)) (tbl : attempts)
    : list AuthResult * attempts :=
  match arrivals with
  | [] => ([], tbl)
  | (now, handshake) :: later =>
      let '(result, tbl) :=
        socketAuthMiddleware verifyIdToken findUserByFirebaseUid
          now now handshake tbl in
      let '(rest, tbl) :=
        connect_all verifyIdToken findUserByFirebaseUid later tbl in
      (result :: rest, tbl)
  end.

(** [requireSocketAdmin] on the attached data, if any. *)
Definition requireSocketAdmin (data : option SocketData) : bool :=
  match data with
  | Some d => bool_decide ("admin" ∈ roles d)
  | None => false
  end.

(** A run of admission attempts from one address, oldest first. *)
Fixpoint attempt_all (ip : string) (times : list Z) (tbl : attempts)
    : list bool * attempts :=
  match times with
  | [] => ([], tbl)
  | now :: later =>
      let '(allowed, tbl) := checkRateLimit now ip tbl in
      let '(rest, tbl) := attempt_all ip later tbl in
      (allowed :: rest, tbl)
  end.

(** Events on the rate-limit table: an admission attempt or a tick of the
    periodic sweep. *)
Inductive RateEvent :=
| Attempt (now : Z) (ip : string)
| RateSweep (now : Z).

Definition rate_step (tbl : attempts) (ev : RateEvent) : attempts :=
  match ev with
  | Attempt now ip => snd (checkRateLimit now ip tbl)
  | RateSweep now => cleanupRateLimits now tbl
  end.

Definition rate_run (evs : list RateEvent) (tbl : attempts) : attempts :=
  foldl rate_step tbl evs.

Definition event_time (ev : RateEvent) : Z :=
  match ev with
  | Attempt now _ => now
  | RateSweep now => now
  end.

(** No entry counts more attempts than the ceiling. *)
Definition counts_bounded (tbl : attempts) : Prop :=
  ∀ ip entry, tbl !! ip = Some entry →
    count entry ≤ MAX_CONNECTIONS_PER_MINUTE.

End Auth.

(** ** The gateway as a transition system

    The server is one JavaScript thread. A call of an [async] function runs
    without interruption up to its next [await]; there it is suspended,
    and anything else may run before it continues: the first part of
    another call, the continuation of another suspended call, the sweep.
    A step of the system is one such uninterrupted part.

    [joinRoom] awaits [socket.join] between its capacity check and the
    update of the member set; [leaveRoom] awaits [socket.leave] between
    reading the room from the map and updating it; [leaveAllRooms], the
    disconnect handler, awaits each [leaveRoom] of its loop. A suspended
    call keeps what its closure holds: the [socket.data] object of its
    connection, the room key, and the room object it read from the map,
    which by the time it continues may have been swept from the map. *)

Module Gateway.
Import Rooms.

(** [size ≤ limit] for a limit of the table. *)
Definition within (size : nat) (limit : Limit) : Prop :=
  match limit with
  | Finite n => size ≤ n
  | Infinity => True
  end.

(** The capacity invariant of one room. *)
Definition within_capacity (room : RoomInfo) : Prop :=
  ∃ limit, ROOM_LIMITS (room_type room) = Some limit
           ∧ within (size (members room)) limit.

(** The member count of the room has reached the limit of the type. *)
Definition at_capacity (type : RoomType) (room : RoomInfo) : Prop :=
  match ROOM_LIMITS type with
  | Some (Finite n) => n ≤ size (members room)
  | Some Infinity | None => False
  end.

(** A registry in which every room is stored under the key of its own
    type and id, has one of the four types, and is within its capacity. *)
Definition registry_ok (rooms : registry) : Prop :=
  ∀ key room, rooms !! key = Some room →
    is_room_type (room_type room) = true
    ∧ key = getRoomId (room_type room) (room_id room)
    ∧ within_capacity room.

(** The same without the capacity: what every registry built by joins
    with a room type satisfies, however the calls overlap. *)
Definition registry_keyed (rooms : registry) : Prop :=
  ∀ key room, rooms !! key = Some room →
    is_room_type (room_type room) = true
    ∧ key = getRoomId (room_type room) (room_id room).

(** Vocabulary of the statements about [getRoomStats]. *)

Definition rooms_of_type (type : RoomType) (rooms : registry) : nat :=
  size (filter (λ kr, room_type kr.2 = type) rooms).

Definition rooms_with (subject : string) (rooms : registry) : nat :=
  size (filter (λ kr, subject ∈ members kr.2) rooms).

Definition drop_member (subject : string) (room : RoomInfo) : RoomInfo :=
  set_members (members room ∖ {[subject]}) room.

Definition add_member (subject : string) (room : RoomInfo) : RoomInfo :=
  set_members ({[subject]} ∪ members room) room.

Definition without_subject (subject : string) (rooms : registry) : registry :=
  drop_member subject <$> rooms.

(** The sum over all rooms of the sizes of their member sets. *)
Definition member_total (rooms : registry) : nat :=
  sum_list_with (λ room, size (members room)) (map_to_list rooms).*2.

(** The state the disconnect handler aims at: the connection holds no room
    key and its subject is listed in no room. *)
Definition left_everything (data : SocketData) (rooms : registry) : Prop :=
  sd_rooms data = ∅
  ∧ ∀ key room, rooms !! key = Some room → odv data ∉ members room.

(** A suspended call. A room object is named by its key and by the number
    of room objects that had been created under that key when it was
    made: the object a call holds is the one in the map exactly when the
    key is in the map and that number has not moved. *)
Inductive Task :=
| JoinAwait (sock : nat) (roomId : string) (room : nat)
    (** [joinRoom] at [await socket.join(roomId)] *)
| LeaveAwait (sock : nat) (roomId : string) (room : option nat)
    (iterator : option (gset string))
    (** [leaveRoom] at [await socket.leave(roomId)]; [room] is [None] when
        the map had no room; [iterator] is the loop of [leaveAllRooms]
        that waits for this call, if one does, see [LeaveAllLoop] *)
| LeaveAllLoop (sock : nat) (seen : gset string)
    (** [leaveAllRooms] about to ask the iterator of [data.rooms] for the
        next key; [seen] are the entries of the set the iterator has
        passed *).

(** [w_sockets] holds the [socket.data] object of every connection,
    [w_closed] the connections that have disconnected (their data stays
    reachable from suspended calls), [w_made] how many room objects have
    been created under each key, [w_tasks] the suspended calls. *)
Record World := mkWorld {
  w_rooms : registry;
  w_made : gmap string nat;
  w_sockets : gmap nat SocketData;
  w_closed : gset nat;
  w_tasks : list Task
}.

Definition with_rooms (rooms : registry) (w : World) : World :=
  {| w_rooms := rooms; w_made := w_made w; w_sockets := w_sockets w;
     w_closed := w_closed w; w_tasks := w_tasks w |}.

Definition with_data (sock : nat) (data : SocketData) (w : World) : World :=
  {| w_rooms := w_rooms w; w_made := w_made w;
     w_sockets := <[sock := data]> (w_sockets w);
     w_closed := w_closed w; w_tasks := w_tasks w |}.

Definition with_tasks (tasks : list Task) (w : World) : World :=
  {| w_rooms := w_rooms w; w_made := w_made w; w_sockets := w_sockets w;
     w_closed := w_closed w; w_tasks := tasks |}.

Definition suspend (task : Task) (w : World) : World :=
  with_tasks (w_tasks w ++ [task]) w.

Definition close (sock : nat) (w : World) : World :=
  {| w_rooms := w_rooms w; w_made := w_made w; w_sockets := w_sockets w;
     w_closed := {[sock]} ∪ w_closed w; w_tasks := w_tasks w |}.

Definition made (w : World) (roomId : string) : nat :=
  default 0 (w_made w !! roomId).

(** The room object created as number [room] under [roomId] is the one in
    the map. *)
Definition same_object (roomId : string) (room : nat) (w : World) : bool :=
  bool_decide (is_Some (w_rooms w !! roomId))
  && bool_decide (made w roomId = room).

(** [joinRoom] up to its [await] (l.89-101): the room is looked up or
    created and the capacity checked; a refused call ends here. *)
Definition joinRoom_begin (sock : nat) (now : Z) (type : RoomType)
    (id : string) (w : World) : World :=
  let roomId := getRoomId type id in
  let '(room, rooms) := getOrCreateRoom now type id (w_rooms w) in
  let counts :=
    match w_rooms w !! roomId with
    | Some _ => w_made w
    | None => <[roomId := S (made w roomId)]> (w_made w)
    end in
  let w := {| w_rooms := rooms; w_made := counts; w_sockets := w_sockets w;
              w_closed := w_closed w; w_tasks := w_tasks w |} in
  if size_ge_limit (size (members room)) (ROOM_LIMITS type) then w
  else suspend (JoinAwait sock roomId (made w roomId)) w.

(** [joinRoom] after its [await] (l.103-113): [room.members.add] on the
    room object the call holds, which changes the registry when that
    object is still in the map, and [data.rooms.add]. *)
Definition joinRoom_resume (sock : nat) (roomId : string) (room : nat)
    (w : World) : World :=
  match w_sockets w !! sock with
  | None => w
  | Some data =>
      let rooms :=
        if same_object roomId room w
        then alter (add_member (odv data)) roomId (w_rooms w)
        else w_rooms w in
      with_data sock (set_sd_rooms ({[roomId]} ∪ sd_rooms data) data)
        (with_rooms rooms w)
  end.

(** [leaveRoom] up to its [await] (l.124-129): the room is read from the
    map. *)
Definition leaveRoom_begin (sock : nat) (type : RoomType) (id : string)
    (iterator : option (gset string)) (w : World) : World :=
  let roomId := getRoomId type id in
  let room :=
    match w_rooms w !! roomId with
    | Some _ => Some (made w roomId)
    | None => None
    end in
  suspend (LeaveAwait sock roomId room iterator) w.

(** An entry deleted from the [data.rooms] of a connection is no longer
    among the entries an iterator of that set has passed: if the key is
    added again it is a new entry, at the end. *)
Definition forget (sock : nat) (roomId : string) (task : Task) : Task :=
  match task with
  | LeaveAllLoop s seen =>
      if decide (s = sock) then LeaveAllLoop s (seen ∖ {[roomId]}) else task
  | LeaveAwait s r room (Some seen) =>
      if decide (s = sock) then LeaveAwait s r room (Some (seen ∖ {[roomId]}))
      else task
  | _ => task
  end.

(** [leaveRoom] after its [await] (l.131-141); when [leaveAllRooms] waits
    for the call, its loop is then ready to go on. *)
Definition leaveRoom_resume (sock : nat) (roomId : string)
    (room : option nat) (iterator : option (gset string)) (w : World)
    : World :=
  match w_sockets w !! sock with
  | None => w
  | Some data =>
      let rooms :=
        match room with
        | Some n =>
            if same_object roomId n w
            then alter (drop_member (odv data)) roomId (w_rooms w)
            else w_rooms w
        | None => w_rooms w
        end in
      let w := with_data sock (set_sd_rooms (sd_rooms data ∖ {[roomId]}) data)
                 (with_rooms rooms w) in
      let w := with_tasks (forget sock roomId <$> w_tasks w) w in
      match iterator with
      | Some seen => suspend (LeaveAllLoop sock (seen ∖ {[roomId]})) w
      | None => w
      end
  end.

(** The loop of [leaveAllRooms] (l.152-157) from the point where it asks
    for the next key, with the entries it has not passed in the order
    [order]: a key that does not parse is passed over; at the first key
    that parses [leaveRoom] is called and runs up to its [await]; when no
    entry is left the call ends. *)
Fixpoint leaveAllRooms_advance (sock : nat) (seen : gset string)
    (order : list string) (w : World) : World :=
  match order with
  | [] => w
  | roomId :: rest =>
      match parseRoomId roomId with
      | None => leaveAllRooms_advance sock ({[roomId]} ∪ seen) rest w
      | Some parsed =>
          leaveRoom_begin sock (p_type parsed) (p_id parsed)
            (Some ({[roomId]} ∪ seen)) w
      end
  end.

(** [order] lists the entries [keys], each once. JavaScript iterates a
    set in insertion order, which a [gset] does not record: a step that
    iterates is given the order. *)
Definition lists (order : list string) (keys : gset string) : bool :=
  bool_decide (NoDup order ∧ list_to_set order = keys).

(** What can happen next: an event from a client, the disconnect of a
    connection, the continuation of the suspended call number [task], or
    a tick of the sweep timer. *)
Inductive Op :=
| Join (sock : nat) (now : Z) (type : RoomType) (id : string)
| Leave (sock : nat) (type : RoomType) (id : string)
| Disconnect (sock : nat) (order : list string)
| Resume (task : nat) (order : list string)
| Sweep.

Definition connected (sock : nat) (w : World) : bool :=
  bool_decide (is_Some (w_sockets w !! sock))
  && negb (bool_decide (sock ∈ w_closed w)).

Definition resume (task : nat) (order : list string) (w : World) : World :=
  match w_tasks w !! task with
  | None => w
  | Some suspended =>
      let rest := with_tasks (delete task (w_tasks w)) w in
      match suspended with
      | JoinAwait sock roomId room => joinRoom_resume sock roomId room rest
      | LeaveAwait sock roomId room iterator =>
          leaveRoom_resume sock roomId room iterator rest
      | LeaveAllLoop sock seen =>
          match w_sockets w !! sock with
          | Some data =>
              if lists order (sd_rooms data ∖ seen)
              then leaveAllRooms_advance sock seen order rest
              else w
          | None => w
          end
      end
  end.

(** One step. Events arrive only on connections that are open; a step
    that iterates with an order that does not list the entries is no
    step. *)
Definition step (w : World) (op : Op) : World :=
  match op with
  | Join sock now type id =>
      if connected sock w then joinRoom_begin sock now type id w else w
  | Leave sock type id =>
      if connected sock w then leaveRoom_begin sock type id None w else w
  | Disconnect sock order =>
      match w_sockets w !! sock with
      | Some data =>
          if connected sock w && lists order (sd_rooms data)
          then leaveAllRooms_advance sock ∅ order (close sock w)
          else w
      | None => w
      end
  | Resume task order => resume task order w
  | Sweep => with_rooms (cleanupEmptyRooms (w_rooms w)) w
  end.

Definition run (ops : list Op) (w : World) : World := foldl step w ops.

(** The steps that take a [leaveAllRooms] call suspended as the task
    number [task] to its end when nothing else runs in between, for the
    order [order] of the entries it has not passed: for each key that
    parses, the continuation of [leaveRoom] and then the loop. *)
Fixpoint completion (task : nat) (order : list string) : list Op :=
  match order with
  | [] => []
  | roomId :: rest =>
      match parseRoomId roomId with
      | None => completion task rest
      | Some _ => Resume task [] :: Resume task rest :: completion task rest
      end
  end.

(** The callers of [joinRoom] pass a [RoomType]. *)
Definition well_typed (op : Op) : Prop :=
  match op with
  | Join _ _ type _ => is_room_type type = true
  | _ => True
  end.

(** The server when the module is loaded, with any set of connections. *)
Definition initial (sockets : gmap nat SocketData) : World :=
  {| w_rooms := ∅; w_made := ∅; w_sockets := sockets;
     w_closed := ∅; w_tasks := [] |}.

End Gateway.

(** ** Concrete sessions used to exercise the statements *)

Module Scenario.
Import Rooms Gateway.

(** The [socket.data] the middleware attaches for a subject. *)
Definition session (subject : string) : SocketData :=
  {| userId := subject; odv := subject; firebaseUid := "fb-" +:+ subject;
     roles := []; connectedAt := 0; sd_rooms := ∅ |}.

(** Three subjects, one connection each. *)
Definition three_sockets : gmap nat SocketData :=
  {[ 1 := session "alice"; 2 := session "bob"; 3 := session "carol" ]}.

End Scenario.

(** * Properties *)

(** ** Room keys: [split], [join], [getRoomId], [parseRoomId] *)

Section RoomKeys.
Import JsString Rooms.

Lemma falsy_true (s : string) : falsy s = true ↔ s = "".
Proof. destruct s; simpl; split; intros; congruence. Qed.

Lemma falsy_false (s : string) : falsy s = false ↔ s ≠ "".
Proof. destruct s; simpl; split; intros; congruence. Qed.

Lemma split_not_nil sep s : split sep s ≠ [].
Proof.
  destruct s as [|c s]; simpl; [discriminate|].
  case_decide; [discriminate|]. destruct (split sep s); discriminate.
Qed.

(** Joining the pieces of a split gives the string back. *)
Lemma join_split sep s : join sep (split sep s) = s.
Proof.
  induction s as [|c s IH]; simpl; [reflexivity|].
  case_decide as Hc.
  - subst c. pose proof (split_not_nil sep s) as Hne.
    destruct (split sep s) as [|p ps] eqn:E; [congruence|].
    rewrite <-IH. reflexivity.
  - destruct (split sep s) as [|p ps] eqn:E.
    + by destruct (split_not_nil sep s).
    + rewrite <-IH. destruct ps as [|q qs]; reflexivity.
Qed.

(** A separator-free string is the only piece of its split. *)
Lemma split_free sep s : free_of sep s = true → split sep s = [s].
Proof.
  induction s as [|c s IH]; simpl; [done|].
  case_decide; [discriminate|]. intros Hs. by rewrite IH.
Qed.

(** The first piece of a split ends at the first separator. *)
Lemma split_app sep t s :
  free_of sep t = true →
  split sep (t +:+ String sep s) = t :: split sep s.
Proof.
  induction t as [|c t IH]; simpl.
  - intros _. by rewrite decide_True.
  - case_decide; [discriminate|]. intros Ht. by rewrite IH.
Qed.

(** Conversely, the first piece is separator-free and the split string is
    the first piece, or the first piece, a separator and the join of the
    other pieces. *)
Lemma split_head sep s p ps :
  split sep s = p :: ps →
  free_of sep p = true
  ∧ (ps = [] ∧ s = p ∨ ps ≠ [] ∧ s = p +:+ String sep (join sep ps)).
Proof.
  revert p ps. induction s as [|c s IH]; simpl; intros p ps.
  - intros [= <- <-]. auto.
  - case_decide as Hc.
    + intros [= <- <-]. split; [done|]. right. subst c.
      split; [apply split_not_nil|]. by rewrite join_split.
    + destruct (split sep s) as [|q qs] eqn:E; [by destruct (split_not_nil sep s)|].
      intros [= <- <-]. destruct (IH q qs eq_refl) as [Hq Hs].
      split; [simpl; by rewrite decide_False|].
      destruct Hs as [[-> ->]|[Hne ->]]; [by left|by right].
Qed.

Lemma room_type_cases t :
  is_room_type t = true ↔
  t = "battle" ∨ t = "game" ∨ t = "spot" ∨ t = "global".
Proof.
  unfold is_room_type. rewrite !orb_true_iff, !bool_decide_eq_true. tauto.
Qed.

Lemma room_type_free t : is_room_type t = true → free_of colon t = true.
Proof. rewrite room_type_cases. intros [-> | [-> | [-> | ->]]]; reflexivity. Qed.

Lemma room_type_not_empty t : is_room_type t = true → t ≠ "".
Proof. rewrite room_type_cases. intros [-> | [-> | [-> | ->]]]; discriminate. Qed.

(** Parsing a key built from a non-empty separator-free type and a
    non-empty id gives the two back. *)
Lemma parse_getRoomId type id :
  free_of colon type = true → type ≠ "" → id ≠ "" →
  parseRoomId (getRoomId type id) = Some {| p_type := type; p_id := id |}.
Proof.
  intros Hfree Ht Hid. unfold parseRoomId, getRoomId.
  rewrite split_app by done. rewrite join_split.
  apply falsy_false in Ht, Hid. by rewrite Ht, Hid.
Qed.

(** Whatever [parseRoomId] accepts is the key of the pair it returns. *)
Lemma parse_Some_inv key p :
  parseRoomId key = Some p →
  p_type p ≠ "" ∧ p_id p ≠ "" ∧ free_of colon (p_type p) = true
  ∧ key = getRoomId (p_type p) (p_id p).
Proof.
  unfold parseRoomId. destruct (split colon key) as [|t rest] eqn:E; [done|].
  destruct (falsy t) eqn:Ht; [done|]. destruct (falsy (join colon rest)) eqn:Hi; [done|].
  simpl. intros [= <-]. simpl.
  apply falsy_false in Ht, Hi. destruct (split_head _ _ _ _ E) as [Hfree Hs].
  repeat split; try done.
  destruct Hs as [[-> _]|[_ ->]]; [done|reflexivity].
Qed.

(** Keys of rooms with a separator-free type determine the type and id. *)
Lemma getRoomId_inj t1 i1 t2 i2 :
  free_of colon t1 = true → free_of colon t2 = true →
  getRoomId t1 i1 = getRoomId t2 i2 → t1 = t2 ∧ i1 = i2.
Proof.
  intros H1 H2 Heq. apply (f_equal (split colon)) in Heq.
  unfold getRoomId in Heq. rewrite !split_app in Heq by done.
  injection Heq as -> Hs. split; [done|].
  by rewrite <-(join_split colon i1), <-(join_split colon i2), Hs.
Qed.

End RoomKeys.

(** ** Claims about the room keys *)

Section RoomKeyClaims.
Import JsString Rooms.

(** C5. For each of the four room types and every non-empty id,
    [parseRoomId (getRoomId type id)] is exactly the pair [(type, id)]. A
    key without separator, a key with an empty type segment and a key with
    an empty id segment all parse to the failure value, and a successful
    parse is never partial: both fields are non-empty and the key is the
    one [getRoomId] builds from them. *)
Theorem room_key_round_trip :
  (∀ type id, is_room_type type = true → id ≠ "" →
     parseRoomId (getRoomId type id) = Some {| p_type := type; p_id := id |})
  ∧ (∀ key, free_of colon key = true → parseRoomId key = None)
  ∧ (∀ rest, parseRoomId (String colon rest) = None)
  ∧ (∀ type, free_of colon type = true → parseRoomId (getRoomId type "") = None)
  ∧ (∀ key parsed, parseRoomId key = Some parsed →
       p_type parsed ≠ "" ∧ p_id parsed ≠ ""
       ∧ key = getRoomId (p_type parsed) (p_id parsed)).
Proof.
  split; [|split; [|split; [|split]]].
  - intros type id Ht Hid.
    apply parse_getRoomId; auto using room_type_free, room_type_not_empty.
  - intros key Hfree. unfold parseRoomId. rewrite split_free by done.
    simpl. by rewrite orb_true_r.
  - intros rest. reflexivity.
  - intros type Hfree. unfold parseRoomId, getRoomId.
    rewrite split_app by done. simpl. by rewrite orb_true_r.
  - intros key parsed Hp. destruct (parse_Some_inv _ _ Hp) as (? & ? & ? & ?).
    auto.
Qed.

Lemma room_key_round_trip_witness :
  parseRoomId (getRoomId "game" "lobby:7")
    = Some {| p_type := "game"; p_id := "lobby:7" |}
  ∧ parseRoomId "battle" = None
  ∧ parseRoomId (getRoomId "spot" "") = None.
Proof.
  destruct room_key_round_trip as (Hrt & Hnosep & _ & Hnoid & _).
  split; [|split].
  - apply Hrt; [reflexivity|discriminate].
  - apply Hnosep. reflexivity.
  - apply Hnoid. reflexivity.
Defined.

(** C9. [parseRoomId] does not check the type segment against the four
    room types: whenever the first segment and the remainder are both
    non-empty it returns them, and ["foo:bar"] parses to type ["foo"] and
    id ["bar"] although ["foo"] is no room type. *)
Theorem parseRoomId_accepts_any_type :
  (∀ type rest, free_of colon type = true → type ≠ "" → rest ≠ "" →
     parseRoomId (type +:+ String colon rest)
       = Some {| p_type := type; p_id := rest |})
  ∧ parseRoomId "foo:bar" = Some {| p_type := "foo"; p_id := "bar" |}
  ∧ is_room_type "foo" = false.
Proof.
  split; [|split; reflexivity].
  intros type rest Hfree Ht Hrest. by apply parse_getRoomId.
Qed.

Lemma parseRoomId_accepts_any_type_witness :
  parseRoomId ("admin" +:+ String colon "x:y")
    = Some {| p_type := "admin"; p_id := "x:y" |}.
Proof.
  apply (proj1 parseRoomId_accepts_any_type); [reflexivity|discriminate..].
Defined.

End RoomKeyClaims.

(** ** The periodic sweeps *)

Section Sweeps.

(** A loop that visits entries in some order and deletes the key of every
    entry that satisfies a condition: a key is gone when one of the visited
    entries under it satisfies the condition, and is untouched otherwise. *)
Lemma delete_loop_lookup {A} (P : string * A → Prop)
    `{!∀ e, Decision (P e)} (order : list (string * A)) :
  ∀ (init : gmap string A) (k : string),
    foldl (λ acc e, if decide (P e) then delete e.1 acc else acc) init order !! k
    = if decide (Exists (λ e, e.1 = k ∧ P e) order) then None else init !! k.
Proof.
  induction order as [|e order IH]; intros init k; cbn [foldl].
  - rewrite decide_False; [done|]. by intros ?%Exists_nil.
  - rewrite IH. destruct (decide (Exists (λ e, e.1 = k ∧ P e) order)) as [Hex|Hno].
    + rewrite decide_True; [done|]. by apply Exists_cons_tl.
    + destruct (decide (e.1 = k ∧ P e)) as [[<- HP]|Hne].
      * rewrite (decide_True (P:=P e)) by done.
        rewrite decide_True by (by apply Exists_cons_hd).
        apply lookup_delete_eq.
      * rewrite (decide_False (P:=Exists _ (e :: order))).
        -- case_decide; [|done]. apply lookup_delete_ne. tauto.
        -- intros [?|?]%Exists_cons; tauto.
Qed.

(** When the visited entries are those of the map itself, in any order,
    the loop keeps exactly the entries that do not satisfy the condition. *)
Lemma sweep_loop_lookup {A} (P : string * A → Prop)
    `{!∀ e, Decision (P e)} (order : list (string * A)) (m : gmap string A) k :
  order ≡ₚ map_to_list m →
  foldl (λ acc e, if decide (P e) then delete e.1 acc else acc) m order !! k
  = match m !! k with
    | Some x => if decide (P (k, x)) then None else Some x
    | None => None
    end.
Proof.
  intros Hperm. rewrite delete_loop_lookup.
  destruct (decide (Exists (λ e, e.1 = k ∧ P e) order)) as [Hex|Hno].
  - apply Exists_exists in Hex as ([k' x] & Hin & Hk & HP). simpl in Hk. subst k'.
    rewrite Hperm in Hin. apply elem_of_map_to_list in Hin.
    rewrite Hin. by rewrite decide_True.
  - destruct (m !! k) as [x|] eqn:E; [|done].
    rewrite decide_False; [done|]. intros HP. apply Hno.
    apply Exists_exists. exists (k, x). split; [|done].
    rewrite Hperm. by apply elem_of_map_to_list.
Qed.

Lemma cleanupEmptyRooms_in_lookup order (rooms : gmap string Rooms.RoomInfo) k :
  order ≡ₚ map_to_list rooms →
  Rooms.cleanupEmptyRooms_in order rooms !! k
  = match rooms !! k with
    | Some room => if decide (size (Rooms.members room) = 0) then None
                   else Some room
    | None => None
    end.
Proof.
  intros Hperm.
  exact (sweep_loop_lookup (λ e, size (Rooms.members e.2) = 0)
           order rooms k Hperm).
Qed.

Lemma cleanupEmptyRooms_lookup (rooms : gmap string Rooms.RoomInfo) k :
  Rooms.cleanupEmptyRooms rooms !! k
  = match rooms !! k with
    | Some room => if decide (size (Rooms.members room) = 0) then None
                   else Some room
    | None => None
    end.
Proof. by apply cleanupEmptyRooms_in_lookup. Qed.

(** The order in which the sweep visits the rooms does not matter. *)
Lemma cleanupEmptyRooms_any_order order (rooms : gmap string Rooms.RoomInfo) :
  order ≡ₚ map_to_list rooms →
  Rooms.cleanupEmptyRooms_in order rooms = Rooms.cleanupEmptyRooms rooms.
Proof.
  intros Hperm. apply map_eq. intros k.
  by rewrite cleanupEmptyRooms_in_lookup, cleanupEmptyRooms_lookup.
Qed.

Lemma cleanupEmptyRooms_Some (rooms : gmap string Rooms.RoomInfo) k room :
  Rooms.cleanupEmptyRooms rooms !! k = Some room
  ↔ rooms !! k = Some room ∧ Rooms.members room ≠ ∅.
Proof.
  rewrite cleanupEmptyRooms_lookup. destruct (rooms !! k) as [r|] eqn:E.
  - case_decide as Hs.
    + apply size_empty_inv in Hs. apply leibniz_equiv in Hs.
      split; [done|]. intros [[= ->] Hne]. done.
    + split.
      * intros [= ->]. split; [done|]. intros Hm. rewrite Hm in Hs.
        by rewrite size_empty in Hs.
      * by intros [? _].
  - split; [done|]. by intros [? _].
Qed.

Lemma cleanupRateLimits_in_lookup order now (tbl : gmap string Auth.RateEntry) ip :
  order ≡ₚ map_to_list tbl →
  Auth.cleanupRateLimits_in order now tbl !! ip
  = match tbl !! ip with
    | Some data => if decide (now > Auth.resetAt data)%Z then None
                   else Some data
    | None => None
    end.
Proof.
  intros Hperm.
  exact (sweep_loop_lookup (λ e, (now > Auth.resetAt e.2)%Z)
           order tbl ip Hperm).
Qed.

Lemma cleanupRateLimits_lookup now (tbl : gmap string Auth.RateEntry) ip :
  Auth.cleanupRateLimits now tbl !! ip
  = match tbl !! ip with
    | Some data => if decide (now > Auth.resetAt data)%Z then None
                   else Some data
    | None => None
    end.
Proof. by apply cleanupRateLimits_in_lookup. Qed.

Lemma cleanupRateLimits_any_order order now (tbl : gmap string Auth.RateEntry) :
  order ≡ₚ map_to_list tbl →
  Auth.cleanupRateLimits_in order now tbl = Auth.cleanupRateLimits now tbl.
Proof.
  intros Hperm. apply map_eq. intros ip.
  by rewrite cleanupRateLimits_in_lookup, cleanupRateLimits_lookup.
Qed.

End Sweeps.

(** ** Join and leave on one registry *)

Section RegistryOps.
Import JsString Rooms Gateway.

Implicit Types (rooms : gmap string RoomInfo) (data : SocketData).

Lemma size_add_member (u : string) (ms : gset string) :
  size ({[u]} ∪ ms) ≤ S (size ms).
Proof.
  rewrite size_union_alt, size_singleton.
  assert (size (ms ∖ {[u]}) ≤ size ms); [|lia].
  apply subseteq_size, subseteq_difference_l. reflexivity.
Qed.

Lemma add_member_again (u : string) (ms : gset string) :
  u ∈ ms → {[u]} ∪ ms = ms.
Proof. intros Hu. apply subseteq_union_1_L. by apply singleton_subseteq_l. Qed.

Lemma size_drop_member (u : string) (ms : gset string) :
  size (ms ∖ {[u]}) ≤ size ms.
Proof. apply subseteq_size, subseteq_difference_l. reflexivity. Qed.

Lemma room_limit_defined type :
  is_room_type type = true →
  ∃ limit, ROOM_LIMITS type = Some limit ∧ within 2 limit.
Proof.
  rewrite room_type_cases. intros [-> | [-> | [-> | ->]]]; eexists;
    (split; [reflexivity|simpl; lia]).
Qed.

(** Below the limit there is room for one more member. *)
Lemma below_limit_add (u : string) (ms : gset string) limit :
  size_ge_limit (size ms) (Some limit) = false →
  within (size ({[u]} ∪ ms)) limit.
Proof.
  destruct limit as [n|]; simpl; [|done].
  rewrite bool_decide_eq_false. pose proof (size_add_member u ms). lia.
Qed.

(** [joinRoom] with the branch of [getOrCreateRoom] resolved. *)
Lemma joinRoom_existing now data type id rooms room :
  rooms !! getRoomId type id = Some room →
  joinRoom now data type id rooms =
    if size_ge_limit (size (members room)) (ROOM_LIMITS type) then
      (false, data, rooms)
    else
      (true,
       set_sd_rooms ({[getRoomId type id]} ∪ sd_rooms data) data,
       <[getRoomId type id := set_members ({[odv data]} ∪ members room) room]>
         rooms).
Proof. intros Hr. unfold joinRoom, getOrCreateRoom. by rewrite Hr. Qed.

Lemma joinRoom_created now data type id rooms :
  rooms !! getRoomId type id = None →
  is_room_type type = true →
  joinRoom now data type id rooms =
    (true,
     set_sd_rooms ({[getRoomId type id]} ∪ sd_rooms data) data,
     <[getRoomId type id :=
         {| room_type := type; room_id := id;
            members := {[odv data]} ∪ ∅; createdAt := now |}]> rooms).
Proof.
  intros Hr Ht. unfold joinRoom, getOrCreateRoom. rewrite Hr.
  cbv beta iota zeta. cbn [members].
  destruct (room_limit_defined _ Ht) as (limit & -> & Hl).
  rewrite size_empty.
  assert (size_ge_limit 0 (Some limit) = false) as ->.
  { destruct limit as [n|]; simpl in *; [|done].
    apply bool_decide_eq_false. lia. }
  by rewrite insert_insert_eq.
Qed.

(** The registry after [leaveRoom], key by key. *)
Lemma leaveRoom_lookup data type id rooms key :
  (leaveRoom data type id rooms).2 !! key
  = if decide (key = getRoomId type id)
    then drop_member (odv data) <$> rooms !! key
    else rooms !! key.
Proof.
  unfold leaveRoom. simpl. case_decide as Hk.
  - subst key. destruct (rooms !! getRoomId type id) as [room|] eqn:E.
    + by rewrite lookup_insert_eq.
    + by rewrite E.
  - destruct (rooms !! getRoomId type id) as [room|] eqn:E; [|done].
    by rewrite lookup_insert_ne.
Qed.

Lemma leaveRoom_data data type id rooms :
  (leaveRoom data type id rooms).1
  = set_sd_rooms (sd_rooms data ∖ {[getRoomId type id]}) data.
Proof. reflexivity. Qed.

Lemma registry_ok_empty : registry_ok ∅.
Proof. intros key room Hr. by rewrite lookup_empty in Hr. Qed.

Lemma joinRoom_ok now data type id rooms :
  is_room_type type = true → registry_ok rooms →
  registry_ok (joinRoom now data type id rooms).2.
Proof.
  intros Ht Hok. destruct (rooms !! getRoomId type id) as [room|] eqn:E.
  - rewrite (joinRoom_existing _ _ _ _ _ _ E).
    destruct (Hok _ _ E) as (Hrt & Hkey & limit & Hlim & Hin).
    apply getRoomId_inj in Hkey as [-> ->]; auto using room_type_free.
    destruct (size_ge_limit _ _) eqn:Hfull; [done|].
    intros key r. simpl. destruct (decide (key = getRoomId (room_type room) (room_id room))) as [->|Hne].
    + rewrite lookup_insert_eq. intros [= <-]. simpl.
      repeat split; try done. exists limit. split; [done|].
      rewrite Hlim in Hfull. simpl. by apply below_limit_add.
    + rewrite lookup_insert_ne by done. apply Hok.
  - rewrite joinRoom_created by done. intros key r. simpl.
    destruct (decide (key = getRoomId type id)) as [->|Hne].
    + rewrite lookup_insert_eq. intros [= <-]. simpl.
      repeat split; try done.
      destruct (room_limit_defined _ Ht) as (limit & Hlim & Hl).
      exists limit. split; [done|]. simpl.
      pose proof (size_add_member (odv data) ∅) as Hs.
      rewrite size_empty in Hs. destruct limit; simpl in *; lia.
    + rewrite lookup_insert_ne by done. apply Hok.
Qed.

Lemma drop_member_ok u room :
  within_capacity room → within_capacity (drop_member u room).
Proof.
  intros (limit & Hlim & Hin). exists limit. split; [done|]. simpl.
  pose proof (size_drop_member u (members room)).
  destruct limit; simpl in *; [lia|done].
Qed.

Lemma leaveRoom_ok data type id rooms :
  registry_ok rooms → registry_ok (leaveRoom data type id rooms).2.
Proof.
  intros Hok key r. rewrite leaveRoom_lookup. case_decide; [|apply Hok].
  destruct (rooms !! key) as [room|] eqn:E; [|done]. simpl. intros [= <-].
  destruct (Hok _ _ E) as (? & ? & ?). repeat split; try done.
  by apply drop_member_ok.
Qed.

Lemma cleanupEmptyRooms_ok rooms :
  registry_ok rooms → registry_ok (cleanupEmptyRooms rooms).
Proof.
  intros Hok key r Hr. apply cleanupEmptyRooms_Some in Hr as [Hr _].
  by apply Hok.
Qed.

End RegistryOps.

(** ** Leaving every room *)

Section LeaveAll.
Import JsString Rooms Gateway.

Implicit Types (rooms : gmap string RoomInfo) (data : SocketData).

(** A key that parses is left through [leaveRoom] under that same key. *)
Lemma leaveAllRooms_step_parsed data rooms key parsed :
  key ∈ sd_rooms data → parseRoomId key = Some parsed →
  leaveAllRooms_step (data, rooms) key
  = leaveRoom data (p_type parsed) (p_id parsed) rooms
  ∧ getRoomId (p_type parsed) (p_id parsed) = key.
Proof.
  intros Hin Hp. unfold leaveAllRooms_step. rewrite decide_True by done.
  rewrite Hp. split; [done|].
  by destruct (parse_Some_inv _ _ Hp) as (_ & _ & _ & <-).
Qed.

Lemma leaveAllRooms_step_skipped data rooms key :
  parseRoomId key = None → leaveAllRooms_step (data, rooms) key = (data, rooms).
Proof. intros Hp. unfold leaveAllRooms_step. rewrite Hp. by case_decide. Qed.

(** The state after the loop, for any order that visits keys of the
    session without repetition: the keys that parse are gone from the
    session and the subject is dropped from their rooms; nothing else
    changes. *)
Lemma leaveAllRooms_in_spec order : ∀ data rooms,
  NoDup order → (∀ key, key ∈ order → key ∈ sd_rooms data) →
  odv (leaveAllRooms_in order data rooms).1 = odv data
  ∧ (∀ key, key ∈ sd_rooms (leaveAllRooms_in order data rooms).1
       ↔ key ∈ sd_rooms data ∧ ¬ (key ∈ order ∧ is_Some (parseRoomId key)))
  ∧ (∀ key, (leaveAllRooms_in order data rooms).2 !! key
       = if decide (key ∈ order ∧ is_Some (parseRoomId key))
         then drop_member (odv data) <$> rooms !! key
         else rooms !! key).
Proof.
  induction order as [|k0 order IH]; intros data rooms Hnd Hin.
  - unfold leaveAllRooms_in. cbn [foldl fst snd]. split; [done|]. split.
    + intros key. split; [|tauto]. intros Hk. split; [done|].
      intros [Hk' _]. by apply elem_of_nil in Hk'.
    + intros key. rewrite decide_False; [done|].
      intros [Hk' _]. by apply elem_of_nil in Hk'.
  - apply NoDup_cons in Hnd as [Hk0 Hnd].
    assert (k0 ∈ sd_rooms data) as Hk0in by (apply Hin; left).
    unfold leaveAllRooms_in. cbn [foldl].
    destruct (parseRoomId k0) as [parsed|] eqn:Hp.
    + destruct (leaveAllRooms_step_parsed data rooms k0 parsed Hk0in Hp)
        as [-> Hkey].
      pose proof (leaveRoom_data data (p_type parsed) (p_id parsed) rooms) as Hd.
      pose proof (leaveRoom_lookup data (p_type parsed) (p_id parsed) rooms) as Hl.
      rewrite Hkey in Hd, Hl.
      destruct (leaveRoom data (p_type parsed) (p_id parsed) rooms)
        as [data1 rooms1]. simpl in Hd, Hl. subst data1.
      destruct (IH (set_sd_rooms (sd_rooms data ∖ {[k0]}) data) rooms1 Hnd)
        as (Hodv & Hkeys & Hrooms).
      { intros key Hk. simpl. apply elem_of_difference. split.
        - apply Hin. by right.
        - rewrite elem_of_singleton. intros ->. done. }
      unfold leaveAllRooms_in in Hodv, Hkeys, Hrooms.
      split; [by rewrite Hodv|]. split.
      * intros key. rewrite Hkeys. simpl.
        rewrite elem_of_difference, elem_of_singleton, elem_of_cons.
        split.
        -- intros [[Hk Hne] Hno]. split; [done|]. intros [[->|Hk'] Hs]; tauto.
        -- intros [Hk Hno]. split; [split; [done|]|].
           ++ intros ->. apply Hno. split; [by left|by rewrite Hp].
           ++ intros [Hk' Hs]. apply Hno. split; [by right|done].
      * intros key. rewrite Hrooms, Hl. simpl.
        destruct (decide (key = k0)) as [->|Hne].
        -- rewrite decide_False by tauto.
           rewrite decide_True; [done|]. split; [by left|by rewrite Hp].
        -- destruct (decide (key ∈ order ∧ is_Some (parseRoomId key)))
             as [[Hk Hs]|Hno].
           ++ rewrite decide_True; [done|]. split; [by right|done].
           ++ rewrite decide_False; [done|].
              rewrite elem_of_cons. intros [[->|Hk] Hs]; tauto.
    + rewrite leaveAllRooms_step_skipped by done.
      destruct (IH data rooms Hnd) as (Hodv & Hkeys & Hrooms).
      { intros key Hk. apply Hin. by right. }
      unfold leaveAllRooms_in in Hodv, Hkeys, Hrooms.
      split; [done|]. split.
      * intros key. rewrite Hkeys, elem_of_cons. split.
        -- intros [Hk Hno]. split; [done|]. intros [[->|Hk'] Hs].
           ++ rewrite Hp in Hs. by destruct Hs.
           ++ tauto.
        -- intros [Hk Hno]. split; [done|]. intros [Hk' Hs]. tauto.
      * intros key. rewrite Hrooms.
        destruct (decide (key ∈ order ∧ is_Some (parseRoomId key)))
          as [[Hk Hs]|Hno].
        -- rewrite decide_True; [done|]. split; [by right|done].
        -- rewrite decide_False; [done|].
           rewrite elem_of_cons. intros [[->|Hk] Hs]; [|tauto].
           rewrite Hp in Hs. by destruct Hs.
Qed.

(** The loop changes nothing of [socket.data] but its room set. *)
Lemma leaveAllRooms_in_data order : ∀ data rooms,
  (leaveAllRooms_in order data rooms).1
  = set_sd_rooms (sd_rooms (leaveAllRooms_in order data rooms).1) data.
Proof.
  unfold leaveAllRooms_in.
  induction order as [|k order IH]; intros data rooms; cbn [foldl].
  - by destruct data.
  - assert (∃ ks rooms1,
              leaveAllRooms_step (data, rooms) k = (set_sd_rooms ks data, rooms1))
      as (ks & rooms1 & ->).
    { unfold leaveAllRooms_step. case_decide.
      - destruct (parseRoomId k); [by eexists _, _|].
        exists (sd_rooms data), rooms. by destruct data.
      - exists (sd_rooms data), rooms. by destruct data. }
    by rewrite IH at 1.
Qed.

(** The order in which the loop visits the keys does not matter. *)
Lemma leaveAllRooms_any_order order data rooms :
  order ≡ₚ elements (sd_rooms data) →
  leaveAllRooms_in order data rooms = leaveAllRooms data rooms.
Proof.
  intros Hperm. unfold leaveAllRooms.
  assert (∀ key, key ∈ order ↔ key ∈ elements (sd_rooms data)) as Hmem.
  { intros key. by rewrite Hperm. }
  destruct (leaveAllRooms_in_spec order data rooms) as (_ & Hk1 & Hr1).
  { rewrite Hperm. apply NoDup_elements. }
  { intros key. rewrite Hmem. apply elem_of_elements. }
  destruct (leaveAllRooms_in_spec (elements (sd_rooms data)) data rooms)
    as (_ & Hk2 & Hr2).
  { apply NoDup_elements. }
  { intros key. apply elem_of_elements. }
  pose proof (leaveAllRooms_in_data order data rooms) as Hd1.
  pose proof (leaveAllRooms_in_data (elements (sd_rooms data)) data rooms) as Hd2.
  destruct (leaveAllRooms_in order data rooms) as [d1 r1].
  destruct (leaveAllRooms_in (elements (sd_rooms data)) data rooms) as [d2 r2].
  simpl in *. f_equal.
  - rewrite Hd1, Hd2. f_equal. apply set_eq. intros key.
    rewrite Hk1, Hk2, Hmem. done.
  - apply map_eq. intros key. rewrite Hr1, Hr2.
    destruct (decide (key ∈ order ∧ is_Some (parseRoomId key))) as [[Hk Hs]|Hno].
    + rewrite decide_True; [done|]. split; [by apply Hmem|done].
    + rewrite decide_False; [done|]. intros [Hk Hs]. apply Hno.
      split; [by apply Hmem|done].
Qed.

Lemma leaveAllRooms_step_ok acc key :
  registry_ok acc.2 → registry_ok (leaveAllRooms_step acc key).2.
Proof.
  destruct acc as [data rooms]. simpl. intros Hok.
  unfold leaveAllRooms_step. case_decide; [|done].
  destruct (parseRoomId key); [|done]. by apply leaveRoom_ok.
Qed.

Lemma leaveAllRooms_in_ok order : ∀ data rooms,
  registry_ok rooms → registry_ok (leaveAllRooms_in order data rooms).2.
Proof.
  unfold leaveAllRooms_in.
  induction order as [|k order IH]; intros data rooms Hok; [done|].
  cbn [foldl]. pose proof (leaveAllRooms_step_ok (data, rooms) k Hok) as Hok'.
  destruct (leaveAllRooms_step (data, rooms) k) as [data1 rooms1].
  by apply IH.
Qed.

End LeaveAll.

(** ** Runs of the gateway *)

Section Runs.
Import JsString Rooms Gateway.

Lemma size_ge_limit_at_capacity type room :
  size_ge_limit (size (members room)) (ROOM_LIMITS type) = true
  ↔ at_capacity type room.
Proof.
  unfold at_capacity, size_ge_limit.
  destruct (ROOM_LIMITS type) as [[n|]|].
  - apply bool_decide_eq_true.
  - split; [discriminate|tauto].
  - split; [discriminate|tauto].
Qed.

Lemma leaveAllRooms_advance_rooms sock order : ∀ seen w,
  w_rooms (leaveAllRooms_advance sock seen order w) = w_rooms w.
Proof.
  induction order as [|key order IH]; intros seen w; [done|].
  cbn [leaveAllRooms_advance]. destruct (parseRoomId key); [done|]. apply IH.
Qed.

(** What one step can do to the registry: nothing, or look up or create a
    room for a join, or change one room leaving its type and id alone, or
    sweep. *)
Lemma step_registry w op :
  w_rooms (step w op) = w_rooms w
  ∨ (∃ sock now type id,
       op = Join sock now type id
       ∧ w_rooms (step w op) = (getOrCreateRoom now type id (w_rooms w)).2)
  ∨ (∃ key f,
       (∀ room, room_type (f room) = room_type room
                ∧ room_id (f room) = room_id room)
       ∧ op ≠ Sweep
       ∧ w_rooms (step w op) = alter f key (w_rooms w))
  ∨ (op = Sweep ∧ w_rooms (step w op) = cleanupEmptyRooms (w_rooms w)).
Proof.
  destruct op as [sock now type id|sock type id|sock order|task order|];
    cbn [step].
  - destruct (connected sock w); [|by left]. right. left.
    exists sock, now, type, id. split; [done|].
    unfold joinRoom_begin.
    destruct (getOrCreateRoom now type id (w_rooms w)) as [room rooms].
    by destruct (size_ge_limit _ _).
  - left. by destruct (connected sock w).
  - left. destruct (w_sockets w !! sock) as [data|]; [|done].
    destruct (connected sock w && lists order (sd_rooms data)); [|done].
    by rewrite leaveAllRooms_advance_rooms.
  - unfold resume. destruct (w_tasks w !! task) as [[s r n|s r n it|s seen]|];
      [| | |by left].
    + unfold joinRoom_resume. cbn [w_sockets with_tasks].
      destruct (w_sockets w !! s) as [data|]; [|by left].
      destruct (same_object _ _ _); [|by left].
      right. right. left. exists r, (add_member (odv data)).
      split; [done|]. split; done.
    + unfold leaveRoom_resume. cbn [w_sockets with_tasks].
      destruct (w_sockets w !! s) as [data|]; [|by left].
      assert (∀ w', w_rooms (match it with
                             | Some seen => suspend (LeaveAllLoop s (seen ∖ {[r]})) w'
                             | None => w'
                             end) = w_rooms w') as -> by (by destruct it).
      cbn [w_rooms with_tasks with_data with_rooms].
      destruct n as [n|]; [|by left].
      destruct (same_object _ _ _); [|by left].
      right. right. left. exists r, (drop_member (odv data)).
      split; [done|]. split; done.
    + left. destruct (w_sockets w !! s) as [data|]; [|done].
      destruct (lists _ _); [|done].
      by rewrite leaveAllRooms_advance_rooms.
  - right. right. right. done.
Qed.

Lemma registry_keyed_empty : registry_keyed ∅.
Proof. intros key room Hr. by rewrite lookup_empty in Hr. Qed.

Lemma step_keyed w op :
  well_typed op → registry_keyed (w_rooms w) →
  registry_keyed (w_rooms (step w op)).
Proof.
  intros Hop Hk.
  destruct (step_registry w op)
    as [->|[(sock & now & type & id & -> & ->)
           |[(key & f & Hf & _ & ->)|[_ ->]]]]; [done| | |].
  - unfold getOrCreateRoom.
    destruct (w_rooms w !! getRoomId type id) eqn:E; [done|]. cbn [snd].
    intros key room. destruct (decide (key = getRoomId type id)) as [->|Hne].
    + rewrite lookup_insert_eq. by intros [= <-].
    + rewrite lookup_insert_ne by done. apply Hk.
  - intros k room. destruct (decide (k = key)) as [->|Hne].
    + rewrite lookup_alter_eq.
      destruct (w_rooms w !! key) as [room0|] eqn:E; [|done].
      intros [= <-]. destruct (Hf room0) as [-> ->]. by apply Hk.
    + rewrite lookup_alter_ne by done. apply Hk.
  - intros key room [Hr _]%cleanupEmptyRooms_Some. by apply Hk.
Qed.

Lemma run_keyed ops : ∀ w,
  Forall well_typed ops → registry_keyed (w_rooms w) →
  registry_keyed (w_rooms (run ops w)).
Proof.
  unfold run. induction ops as [|op ops IH]; intros w Hops Hk; [done|].
  apply Forall_cons in Hops as [Hop Hops]. cbn [foldl].
  apply IH; [done|]. by apply step_keyed.
Qed.

(** *** Calls that nothing overlaps

    A call whose continuations run before anything else does is the
    function of module [Rooms]. *)

Lemma alter_present {A} (f : A → A) (m : gmap string A) key x :
  m !! key = Some x → alter f key m = <[key := f x]> m.
Proof.
  intros Hx. apply map_eq. intros k. destruct (decide (k = key)) as [->|Hne].
  - by rewrite lookup_alter_eq, lookup_insert_eq, Hx.
  - by rewrite lookup_alter_ne, lookup_insert_ne.
Qed.

Lemma connected_true sock w data :
  w_sockets w !! sock = Some data → sock ∉ w_closed w → connected sock w = true.
Proof.
  intros Hs Hc. unfold connected. rewrite Hs.
  rewrite bool_decide_eq_true_2 by eauto.
  by rewrite bool_decide_eq_false_2.
Qed.

Lemma join_in_one_go w sock now type id data :
  w_sockets w !! sock = Some data → sock ∉ w_closed w →
  run [Join sock now type id; Resume (length (w_tasks w)) []] w
  = {| w_rooms := (joinRoom now data type id (w_rooms w)).2;
       w_made := w_made (step w (Join sock now type id));
       w_sockets := <[sock := (joinRoom now data type id (w_rooms w)).1.2]>
                      (w_sockets w);
       w_closed := w_closed w;
       w_tasks := w_tasks w |}.
Proof.
  intros Hs Hc. unfold run. cbn [foldl step].
  rewrite (connected_true _ _ _ Hs Hc).
  unfold joinRoom_begin, joinRoom.
  destruct (getOrCreateRoom now type id (w_rooms w)) as [room rooms] eqn:E.
  assert (rooms !! getRoomId type id = Some room) as Hroom.
  { unfold getOrCreateRoom in E.
    destruct (w_rooms w !! getRoomId type id) eqn:E'; injection E as <- <-;
      [done|apply lookup_insert_eq]. }
  destruct (size_ge_limit _ _); cbn [fst snd].
  - unfold resume. cbn [w_tasks]. rewrite lookup_ge_None_2 by lia.
    destruct w. cbn in *. by rewrite (insert_id _ _ _ Hs).
  - unfold resume, suspend. cbn [w_tasks with_tasks].
    rewrite lookup_app_r, Nat.sub_diag by lia. cbn [lookup list_lookup].
    unfold joinRoom_resume. cbn [w_sockets with_tasks]. rewrite Hs.
    unfold same_object, made. cbn [w_rooms w_made with_tasks].
    rewrite Hroom. rewrite bool_decide_eq_true_2 by eauto.
    rewrite bool_decide_eq_true_2 by done. cbn [andb].
    rewrite (alter_present _ _ _ _ Hroom).
    unfold with_data, with_rooms. cbn. f_equal.
    rewrite delete_middle. by rewrite app_nil_r.
Qed.

Lemma leave_in_one_go w sock type id data :
  w_sockets w !! sock = Some data → sock ∉ w_closed w →
  run [Leave sock type id; Resume (length (w_tasks w)) []] w
  = {| w_rooms := (leaveRoom data type id (w_rooms w)).2;
       w_made := w_made w;
       w_sockets := <[sock := (leaveRoom data type id (w_rooms w)).1]>
                      (w_sockets w);
       w_closed := w_closed w;
       w_tasks := forget sock (getRoomId type id) <$> w_tasks w |}.
Proof.
  intros Hs Hc. unfold run. cbn [foldl step].
  rewrite (connected_true _ _ _ Hs Hc).
  unfold leaveRoom_begin, leaveRoom, resume, suspend. cbn [w_tasks with_tasks].
  rewrite lookup_app_r, Nat.sub_diag by lia. cbn [lookup list_lookup].
  unfold leaveRoom_resume. cbn [w_sockets with_tasks]. rewrite Hs.
  rewrite delete_middle, app_nil_r.
  destruct (w_rooms w !! getRoomId type id) as [room|] eqn:E; cbn [fst snd].
  - unfold same_object, made. cbn [w_rooms w_made with_tasks].
    rewrite E. rewrite bool_decide_eq_true_2 by eauto.
    rewrite bool_decide_eq_true_2 by done. cbn [andb].
    by rewrite (alter_present _ _ _ _ E).
  - done.
Qed.

Lemma rest_of_order (k : string) rest (X seen : gset string) :
  NoDup (k :: rest) → list_to_set (k :: rest) = X ∖ seen →
  k ∈ X ∧ (k ∉ seen)
  ∧ list_to_set rest = X ∖ ({[k]} ∪ seen)
  ∧ list_to_set rest = (X ∖ {[k]}) ∖ (({[k]} ∪ seen) ∖ {[k]}).
Proof.
  intros [Hk Hnd]%NoDup_cons Hset.
  assert (∀ x, x ∈ rest ↔ x ≠ k ∧ x ∈ X ∧ x ∉ seen) as Hrest.
  { intros x. assert (x ∈ (list_to_set (k :: rest) : gset string)
                      ↔ x ∈ X ∖ seen) as Hx by (by rewrite Hset).
    rewrite elem_of_list_to_set, elem_of_cons, elem_of_difference in Hx.
    split.
    - intros Hin. split; [by intros ->|]. apply Hx. by right.
    - intros (Hne & HX & Hs). destruct (proj2 Hx) as [?|?]; done. }
  assert (k ∈ X ∖ seen) as [HkX Hks]%elem_of_difference.
  { rewrite <-Hset. apply elem_of_list_to_set. by left. }
  split; [done|]. split; [done|]. split.
  - apply set_eq. intros x.
    rewrite elem_of_list_to_set, Hrest, elem_of_difference, elem_of_union,
      elem_of_singleton. tauto.
  - apply set_eq. intros x.
    rewrite elem_of_list_to_set, Hrest, !elem_of_difference, elem_of_union,
      elem_of_singleton. tauto.
Qed.

Lemma leave_in_loop w sock type id seen data :
  w_tasks w = [] → w_sockets w !! sock = Some data →
  resume 0 [] (leaveRoom_begin sock type id (Some seen) w)
  = {| w_rooms := (leaveRoom data type id (w_rooms w)).2;
       w_made := w_made w;
       w_sockets := <[sock := (leaveRoom data type id (w_rooms w)).1]>
                      (w_sockets w);
       w_closed := w_closed w;
       w_tasks := [LeaveAllLoop sock (seen ∖ {[getRoomId type id]})] |}.
Proof.
  intros Ht Hs.
  unfold leaveRoom_begin, leaveRoom, resume, suspend. rewrite Ht.
  cbn [w_tasks with_tasks app lookup list_lookup delete list_delete].
  unfold leaveRoom_resume. cbn [w_sockets with_tasks]. rewrite Hs.
  destruct (w_rooms w !! getRoomId type id) as [room|] eqn:E; cbn [fst snd].
  - unfold same_object, made. cbn [w_rooms w_made with_tasks].
    rewrite E. rewrite bool_decide_eq_true_2 by eauto.
    rewrite bool_decide_eq_true_2 by done. cbn [andb].
    by rewrite (alter_present _ _ _ _ E).
  - done.
Qed.

Lemma advance_in_one_go sock order : ∀ seen w data,
  w_tasks w = [] → w_sockets w !! sock = Some data →
  NoDup order → list_to_set order = sd_rooms data ∖ seen →
  run (completion 0 order) (leaveAllRooms_advance sock seen order w)
  = {| w_rooms := (leaveAllRooms_in order data (w_rooms w)).2;
       w_made := w_made w;
       w_sockets := <[sock := (leaveAllRooms_in order data (w_rooms w)).1]>
                      (w_sockets w);
       w_closed := w_closed w;
       w_tasks := [] |}.
Proof.
  induction order as [|k rest IH]; intros seen w data Ht Hs Hnd Hset.
  - cbn. destruct w. cbn in *. subst. by rewrite (insert_id _ _ _ Hs).
  - destruct (rest_of_order k rest _ _ Hnd Hset) as (Hk & Hseen & Hskip & Hnext).
    apply NoDup_cons in Hnd as [_ Hnd].
    unfold leaveAllRooms_in. cbn [completion leaveAllRooms_advance foldl].
    destruct (parseRoomId k) as [parsed|] eqn:Hp.
    + destruct (leaveAllRooms_step_parsed data (w_rooms w) k parsed Hk Hp)
        as [-> Hkey].
      unfold run. cbn [foldl step].
      rewrite (leave_in_loop _ _ _ _ _ _ Ht Hs). rewrite Hkey.
      unfold resume.
      cbn [w_tasks lookup list_lookup w_sockets delete list_delete].
      rewrite lookup_insert_eq.
      assert (sd_rooms (leaveRoom data (p_type parsed) (p_id parsed)
                          (w_rooms w)).1 = sd_rooms data ∖ {[k]}) as Hkeys
        by (unfold leaveRoom; by rewrite Hkey).
      unfold lists. rewrite Hkeys. rewrite bool_decide_eq_true_2 by done.
      match goal with
      | |- foldl step ?a ?l = _ => change (foldl step a l) with (run l a)
      end.
      rewrite (IH _ _ (leaveRoom data (p_type parsed) (p_id parsed)
                         (w_rooms w)).1);
        [|done|apply lookup_insert_eq|done|by rewrite Hkeys].
      cbn [w_rooms w_made w_sockets w_closed with_tasks].
      unfold leaveAllRooms_in. rewrite insert_insert_eq.
      by destruct (leaveRoom data (p_type parsed) (p_id parsed) (w_rooms w)).
    + rewrite leaveAllRooms_step_skipped by done.
      by apply IH.
Qed.

(** [leaveAllRooms] in one go: a disconnect whose loop runs to its end
    with nothing in between is the function [leaveAllRooms_in]. *)
Lemma disconnect_in_one_go w sock order data :
  w_tasks w = [] → w_sockets w !! sock = Some data → sock ∉ w_closed w →
  order ≡ₚ elements (sd_rooms data) →
  run (Disconnect sock order :: completion 0 order) w
  = {| w_rooms := (leaveAllRooms_in order data (w_rooms w)).2;
       w_made := w_made w;
       w_sockets := <[sock := (leaveAllRooms_in order data (w_rooms w)).1]>
                      (w_sockets w);
       w_closed := {[sock]} ∪ w_closed w;
       w_tasks := [] |}.
Proof.
  intros Ht Hs Hc Hperm.
  assert (NoDup order) as Hnd by (rewrite Hperm; apply NoDup_elements).
  assert (list_to_set order = sd_rooms data) as Hset.
  { apply set_eq. intros x.
    by rewrite elem_of_list_to_set, Hperm, elem_of_elements. }
  unfold run. cbn [foldl step]. rewrite Hs.
  rewrite (connected_true _ _ _ Hs Hc). unfold lists.
  rewrite bool_decide_eq_true_2 by done. cbn [andb].
  apply (advance_in_one_go sock order ∅ (close sock w) data); try done.
  rewrite Hset. apply set_eq. intros x. rewrite elem_of_difference.
  split; [|tauto]. intros Hx. split; [done|]. apply not_elem_of_empty.
Qed.

End Runs.

(** ** Claims about capacity and repeated joins *)

Section CapacityClaims.
Import JsString Rooms Gateway Scenario.

(** C1. The code at the failing input. Alice is in the battle room
    [b1]; the joins of bob and of carol both run up to their [await]
    before either continues. Both pass the capacity check on a room of
    one member, and both then add their subject: the room ends with three
    members, beyond the limit of two, with no call left suspended. When
    each join continues before the next one starts, the same three joins
    leave two members and carol's is refused. *)
Theorem overlapping_joins_exceed_capacity :
  let overlapping :=
    run [Join 1 0 "battle" "b1"; Resume 0 [];
         Join 2 1 "battle" "b1"; Join 3 2 "battle" "b1";
         Resume 0 []; Resume 0 []] (initial three_sockets) in
  let in_turn :=
    run [Join 1 0 "battle" "b1"; Resume 0 [];
         Join 2 1 "battle" "b1"; Resume 0 [];
         Join 3 2 "battle" "b1"; Resume 0 []] (initial three_sockets) in
  ROOM_LIMITS "battle" = Some (Finite 2)
  ∧ (∃ room, w_rooms overlapping !! "battle:b1" = Some room
             ∧ members room = {[ "alice"; "bob"; "carol" ]}
             ∧ size (members room) = 3
             ∧ ¬ within_capacity room)
  ∧ w_tasks overlapping = []
  ∧ (∃ room, w_rooms in_turn !! "battle:b1" = Some room
             ∧ members room = {[ "alice"; "bob" ]})
  ∧ w_tasks in_turn = [].
Proof.
  cbv zeta. split; [reflexivity|]. split; [|split; [|split]].
  - exists {| room_type := "battle"; room_id := "b1";
              members := {[ "alice"; "bob"; "carol" ]}; createdAt := 0 |}.
    split; [vm_compute; reflexivity|]. split; [reflexivity|].
    split; [vm_compute; reflexivity|].
    intros (limit & Hlimit & Hwithin). cbn in Hlimit. injection Hlimit as <-.
    vm_compute in Hwithin. lia.
  - vm_compute. reflexivity.
  - exists {| room_type := "battle"; room_id := "b1";
              members := {[ "alice"; "bob" ]}; createdAt := 0 |}.
    split; [vm_compute; reflexivity|reflexivity].
  - vm_compute. reflexivity.
Qed.

(** C3, as the code has it. Two joins in succession with the same session,
    type and id: the second call leaves the session and the registry
    exactly as the first call left them, so the member count of the room
    does not change; and when the first call returned [true] and the room
    is then still below its limit, the second call returns [true] too. *)
Theorem join_twice now1 now2 data type id rooms j1 data1 rooms1 j2 data2 rooms2 :
  joinRoom now1 data type id rooms = (j1, data1, rooms1) →
  joinRoom now2 data1 type id rooms1 = (j2, data2, rooms2) →
  data2 = data1
  ∧ rooms2 = rooms1
  ∧ (size ∘ members <$> rooms2 !! getRoomId type id)
    = (size ∘ members <$> rooms1 !! getRoomId type id)
  ∧ (j1 = true →
     (∀ room, rooms1 !! getRoomId type id = Some room → ¬ at_capacity type room) →
     j2 = true).
Proof.
  intros H1 H2.
  assert (∃ room1, rooms1 !! getRoomId type id = Some room1
            ∧ (j1 = true → odv data1 = odv data
                 ∧ odv data ∈ members room1
                 ∧ getRoomId type id ∈ sd_rooms data1)
            ∧ (j1 = false →
                 size_ge_limit (size (members room1)) (ROOM_LIMITS type) = true))
    as (room1 & Hr1 & Htrue & Hfalse).
  { unfold joinRoom, getOrCreateRoom in H1.
    destruct (rooms !! getRoomId type id) as [room|] eqn:E;
      cbv beta iota zeta in H1;
      destruct (size_ge_limit _ _) eqn:Hfull; injection H1 as <- <- <-.
    - exists room. split; [done|]. split; [discriminate|done].
    - eexists. split; [apply lookup_insert_eq|].
      split; [|discriminate]. intros _. simpl.
      split; [done|]. split; apply elem_of_union_l, elem_of_singleton; done.
    - eexists. split; [apply lookup_insert_eq|].
      split; [discriminate|done].
    - eexists. split; [apply lookup_insert_eq|].
      split; [|discriminate]. intros _. simpl.
      split; [done|]. split; apply elem_of_union_l, elem_of_singleton; done. }
  rewrite (joinRoom_existing _ _ _ _ _ _ Hr1) in H2.
  destruct (size_ge_limit _ _) eqn:Hfull; injection H2 as <- <- <-.
  - repeat split. intros _ Hbelow. exfalso.
    apply (Hbelow _ Hr1). by apply size_ge_limit_at_capacity.
  - destruct j1; [|by specialize (Hfalse eq_refl)].
    destruct (Htrue eq_refl) as (Hodv & Hmem & Hkey).
    assert (set_sd_rooms ({[getRoomId type id]} ∪ sd_rooms data1) data1 = data1)
      as Hd.
    { rewrite add_member_again by done. by destruct data1. }
    assert (<[getRoomId type id :=
                set_members ({[odv data1]} ∪ members room1) room1]> rooms1
            = rooms1) as Hr.
    { apply insert_id. rewrite Hr1. f_equal.
      rewrite Hodv, add_member_again by done. by destruct room1. }
    rewrite Hd, Hr. done.
Qed.

Lemma join_twice_witness :
  ∃ data1 rooms1,
    joinRoom 7 data1 "game" "g" rooms1 = (true, data1, rooms1)
    ∧ (size ∘ members <$> rooms1 !! "game:g") = Some 1.
Proof.
  destruct (joinRoom 3 (session "alice") "game" "g" ∅) as [[j1 data1] rooms1] eqn:E1.
  destruct (joinRoom 7 data1 "game" "g" rooms1) as [[j2 data2] rooms2] eqn:E2.
  destruct (join_twice _ _ _ _ _ _ _ _ _ _ _ _ E1 E2) as (-> & -> & _ & Hj).
  exists data1, rooms1.
  vm_compute in E1. injection E1 as <- <- <-.
  split; [|vm_compute; reflexivity].
  rewrite Hj in E2; [exact E2|reflexivity|].
  intros room Hr. vm_compute in Hr. injection Hr as <-. vm_compute. lia.
Defined.

(** C3 as stated fails: bob joins a battle room that alice is in and is
    accepted, which fills the room; his second, identical join is then
    rejected as "room full" although he is a member. *)
Lemma join_twice_counterexample :
  let rooms0 := (joinRoom 0 (session "alice") "battle" "b1" ∅).2 in
  let '(j1, data1, rooms1) := joinRoom 1 (session "bob") "battle" "b1" rooms0 in
  let '(j2, _, _) := joinRoom 2 data1 "battle" "b1" rooms1 in
  j1 = true ∧ j2 = false.
Proof. vm_compute. split; reflexivity. Qed.

End CapacityClaims.

(** ** Claims about leaving and sweeping *)

Section LifecycleClaims.
Import JsString Rooms Gateway Scenario.

Implicit Types (rooms : gmap string RoomInfo) (data : SocketData).

Lemma leaveRoom_dom data type id rooms :
  dom (leaveRoom data type id rooms).2 = dom rooms.
Proof.
  apply set_eq. intros key. rewrite !elem_of_dom, leaveRoom_lookup.
  case_decide; [|done]. by rewrite fmap_is_Some.
Qed.

Lemma leaveAllRooms_in_dom order : ∀ data rooms,
  dom (leaveAllRooms_in order data rooms).2 = dom rooms.
Proof.
  unfold leaveAllRooms_in.
  induction order as [|k order IH]; intros data rooms; [done|].
  cbn [foldl].
  assert (dom (leaveAllRooms_step (data, rooms) k).2 = dom rooms) as Hstep.
  { unfold leaveAllRooms_step. case_decide; [|done].
    destruct (parseRoomId k); [apply leaveRoom_dom|done]. }
  destruct (leaveAllRooms_step (data, rooms) k) as [data1 rooms1].
  by rewrite IH.
Qed.

Lemma joinRoom_dom now data type id rooms :
  dom rooms ⊆ dom (joinRoom now data type id rooms).2.
Proof.
  unfold joinRoom, getOrCreateRoom.
  destruct (rooms !! getRoomId type id) as [room|] eqn:E;
    cbv beta iota zeta; destruct (size_ge_limit _ _); cbn [snd];
    rewrite ?dom_insert_L; set_solver.
Qed.

Lemma step_keeps_rooms w op :
  op ≠ Sweep → dom (w_rooms w) ⊆ dom (w_rooms (step w op)).
Proof.
  intros Hop.
  destruct (step_registry w op)
    as [->|[(sock & now & type & id & -> & ->)
           |[(key & f & _ & _ & ->)|[-> _]]]]; [done| | |done].
  - unfold getOrCreateRoom.
    destruct (w_rooms w !! getRoomId type id); [done|]. cbn [snd].
    rewrite dom_insert_L. apply union_subseteq_r.
  - by rewrite dom_alter_L.
Qed.

(** C8. A sweep keeps exactly the rooms whose member set is not empty at
    the tick, and keeps them as they are: a room with no member is removed
    by it and a room with a member never is. Between sweeps no room goes
    away: [leaveRoom] and [leaveAllRooms] keep every key of the registry,
    also when they remove the last member, and [joinRoom] only adds keys,
    so an empty room stays until the next tick. *)
Theorem sweep_deletes_exactly_empty_rooms :
  (∀ rooms key room,
     cleanupEmptyRooms rooms !! key = Some room
     ↔ rooms !! key = Some room ∧ members room ≠ ∅)
  ∧ (∀ rooms key room,
       rooms !! key = Some room → members room = ∅ →
       cleanupEmptyRooms rooms !! key = None)
  ∧ (∀ data type id rooms, dom (leaveRoom data type id rooms).2 = dom rooms)
  ∧ (∀ data type id rooms room,
       rooms !! getRoomId type id = Some room → members room = {[odv data]} →
       ∃ room', (leaveRoom data type id rooms).2 !! getRoomId type id = Some room'
                ∧ members room' = ∅)
  ∧ (∀ ops w, Forall (λ op, op ≠ Sweep) ops →
       dom (w_rooms w) ⊆ dom (w_rooms (run ops w))).
Proof.
  split; [|split; [|split; [|split]]].
  - apply cleanupEmptyRooms_Some.
  - intros rooms key room Hr Hm. rewrite cleanupEmptyRooms_lookup, Hr, Hm.
    by rewrite size_empty, decide_True.
  - apply leaveRoom_dom.
  - intros data type id rooms room Hr Hm. eexists.
    rewrite leaveRoom_lookup, decide_True, Hr by done. split; [done|].
    simpl. rewrite Hm. apply leibniz_equiv, difference_diag.
  - intros ops. unfold run.
    induction ops as [|op ops IH]; intros w Hops; [done|].
    apply Forall_cons in Hops as [Hop Hops]. cbn [foldl].
    etrans; [by apply step_keeps_rooms|]. by apply IH.
Qed.

Lemma sweep_deletes_exactly_empty_rooms_witness :
  let w := run [Join 1 0 "battle" "b1"; Resume 0 [];
                Leave 1 "battle" "b1"; Resume 0 []]
               (initial three_sockets) in
  (members <$> w_rooms w !! "battle:b1") = Some ∅
  ∧ cleanupEmptyRooms (w_rooms w) !! "battle:b1" = None.
Proof.
  destruct sweep_deletes_exactly_empty_rooms as (_ & Hgone & _).
  split; [vm_compute; reflexivity|].
  eapply Hgone; vm_compute; reflexivity.
Defined.

(** C2, as the code has it. Take a session all of whose room keys parse
    (each has a non-empty type and a non-empty id), and let the loop of
    [leaveAllRooms] visit them in any order. Afterwards the session holds
    no room key; its subject is a member of no room the session held a key
    for; rooms it held no key for are as before; a key whose room is gone
    from the registry is tolerated and the room stays absent; and the
    subject is left in no room at all exactly when, before the call, every
    room that listed the subject had its key on this session. *)
Theorem leaveAll_leaves_joined_rooms order data rooms :
  order ≡ₚ elements (sd_rooms data) →
  (∀ key, key ∈ sd_rooms data → is_Some (parseRoomId key)) →
  sd_rooms (leaveAllRooms_in order data rooms).1 = ∅
  ∧ (∀ key room, key ∈ sd_rooms data →
       (leaveAllRooms_in order data rooms).2 !! key = Some room →
       odv data ∉ members room)
  ∧ (∀ key, key ∉ sd_rooms data →
       (leaveAllRooms_in order data rooms).2 !! key = rooms !! key)
  ∧ (∀ key, rooms !! key = None →
       (leaveAllRooms_in order data rooms).2 !! key = None)
  ∧ (left_everything (leaveAllRooms_in order data rooms).1
                     (leaveAllRooms_in order data rooms).2
     ↔ ∀ key room, rooms !! key = Some room → odv data ∈ members room →
                   key ∈ sd_rooms data).
Proof.
  intros Hperm Hparse.
  assert (∀ key, key ∈ order ↔ key ∈ sd_rooms data) as Hmem.
  { intros key. by rewrite Hperm, elem_of_elements. }
  destruct (leaveAllRooms_in_spec order data rooms) as (Hodv & Hkeys & Hrooms).
  { rewrite Hperm. apply NoDup_elements. }
  { intros key. apply Hmem. }
  assert (sd_rooms (leaveAllRooms_in order data rooms).1 = ∅) as Hempty.
  { apply set_eq. intros key. rewrite Hkeys. split.
    - intros [Hk Hno]. exfalso. apply Hno. split; [by apply Hmem|by apply Hparse].
    - intros Hk. by apply not_elem_of_empty in Hk. }
  assert (∀ key room, key ∈ sd_rooms data →
            (leaveAllRooms_in order data rooms).2 !! key = Some room →
            odv data ∉ members room) as Hleft.
  { intros key room Hk. rewrite Hrooms.
    rewrite decide_True by (split; [by apply Hmem|by apply Hparse]).
    destruct (rooms !! key) as [r|]; [|done]. simpl. intros [= <-]. simpl.
    rewrite elem_of_difference, elem_of_singleton. tauto. }
  assert (∀ key, key ∉ sd_rooms data →
            (leaveAllRooms_in order data rooms).2 !! key = rooms !! key) as Hout.
  { intros key Hk. rewrite Hrooms. rewrite decide_False; [done|].
    intros [Hk' _]. by apply Hk, Hmem. }
  split; [done|]. split; [done|]. split; [done|]. split.
  - intros key Hnone. rewrite Hrooms, Hnone. by case_decide.
  - split.
    + intros [_ Hnone] key room Hr Hin.
      destruct (decide (key ∈ sd_rooms data)) as [Hk|Hk]; [done|].
      exfalso. apply (Hnone key room); [by rewrite Hout|by rewrite Hodv].
    + intros Honly. split; [done|]. intros key room Hr. rewrite Hodv.
      destruct (decide (key ∈ sd_rooms data)) as [Hk|Hk]; [by eapply Hleft|].
      rewrite Hout in Hr by done. intros Hin. by apply Hk, (Honly key room).
Qed.

Lemma leaveAll_leaves_joined_rooms_witness :
  let data := set_sd_rooms {[ "spot:park"; "battle:9" ]} (session "alice") in
  let rooms : registry :=
    {[ "spot:park" := {| room_type := "spot"; room_id := "park";
                         members := {[ "alice"; "bob" ]}; createdAt := 0 |} ]} in
  left_everything (leaveAllRooms data rooms).1 (leaveAllRooms data rooms).2.
Proof.
  intros data rooms.
  destruct (leaveAll_leaves_joined_rooms (elements (sd_rooms data)) data rooms)
    as (_ & _ & _ & _ & Hiff).
  - reflexivity.
  - intros key Hk. unfold data in Hk. simpl in Hk.
    apply elem_of_union in Hk as [Hk|Hk]; apply elem_of_singleton in Hk;
      subst key; vm_compute; eauto.
  - apply Hiff. intros key room Hr Hin. unfold rooms in Hr.
    apply lookup_singleton_Some in Hr as [<- <-].
    unfold data. simpl. apply elem_of_union_l, elem_of_singleton. reflexivity.
Defined.

(** C2 as stated fails in two ways. A subject connected twice stays a
    member of the room joined through the other connection; and a room
    joined with the empty id has a key that [parseRoomId] rejects, so the
    loop skips it and the membership stays behind. *)
Lemma leaveAll_counterexample :
  (let first := joinRoom 0 (session "alice") "spot" "park" ∅ in
   let second := joinRoom 1 (session "alice") "game" "7" first.2 in
   ¬ left_everything (leaveAllRooms first.1.2 second.2).1
                     (leaveAllRooms first.1.2 second.2).2)
  ∧ (let joined := joinRoom 0 (session "alice") "battle" "" ∅ in
     ¬ left_everything (leaveAllRooms joined.1.2 joined.2).1
                       (leaveAllRooms joined.1.2 joined.2).2).
Proof.
  split; cbv zeta.
  - intros [_ Hnone].
    apply (Hnone "game:7"
             {| room_type := "game"; room_id := "7";
                members := {[ "alice" ]}; createdAt := 1 |});
      vm_compute; reflexivity.
  - intros [_ Hnone].
    apply (Hnone "battle:"
             {| room_type := "battle"; room_id := "";
                members := {[ "alice" ]}; createdAt := 0 |});
      vm_compute; reflexivity.
Qed.

End LifecycleClaims.

(** ** Claims about the connection rate limiter *)

Section RateLimitClaims.
Import Auth.

Implicit Types (tbl : gmap string RateEntry).

(** Inside the window of an entry, as many attempts as still fit under the
    ceiling are all allowed and each adds one to the count. *)
Lemma attempt_all_within ip later : ∀ tbl entry,
  tbl !! ip = Some entry →
  Forall (λ t, (t ≤ resetAt entry)%Z) later →
  count entry + length later ≤ MAX_CONNECTIONS_PER_MINUTE →
  (attempt_all ip later tbl).1 = replicate (length later) true
  ∧ (attempt_all ip later tbl).2 !! ip
    = Some {| count := count entry + length later; resetAt := resetAt entry |}.
Proof.
  induction later as [|t later IH]; intros tbl entry He Hwin Hfit.
  - simpl. rewrite Nat.add_0_r. split; [done|]. rewrite He. by destruct entry.
  - apply Forall_cons in Hwin as [Ht Hwin]. simpl in Hfit.
    cbn [attempt_all]. unfold checkRateLimit. rewrite He.
    rewrite decide_False by lia. rewrite decide_False by lia.
    destruct (IH (<[ip := {| count := S (count entry);
                             resetAt := resetAt entry |}]> tbl)
                 {| count := S (count entry); resetAt := resetAt entry |})
      as [Hall Hentry]; [apply lookup_insert_eq|done|simpl; lia|].
    destruct (attempt_all ip later _) as [rest tbl'].
    simpl in *. split; [by rewrite Hall|].
    rewrite Hentry. f_equal. f_equal. lia.
Qed.

(** An attempt on a missing or expired entry opens a window. *)
Lemma checkRateLimit_fresh now ip tbl :
  (tbl !! ip = None ∨ ∃ entry, tbl !! ip = Some entry ∧ (now > resetAt entry)%Z) →
  checkRateLimit now ip tbl
  = (true, <[ip := {| count := 1;
                      resetAt := (now + RATE_LIMIT_WINDOW_MS)%Z |}]> tbl).
Proof.
  unfold checkRateLimit. intros [->|(entry & -> & Hexp)]; [done|].
  by rewrite decide_True.
Qed.

(** C4. With the ceiling 10 and the window of 60000 ms: when an attempt
    at time [t0] opens a window for an address (no entry, or an expired
    one) and nine more attempts arrive no later than the reset time, all
    ten are allowed, the tenth included; every further attempt no later
    than the reset time is denied; and the first attempt after the reset
    time is allowed and leaves the entry with count 1. *)
Theorem rate_limit_window ip t0 later tbl :
  (tbl !! ip = None ∨ ∃ entry, tbl !! ip = Some entry ∧ (t0 > resetAt entry)%Z) →
  length later = 9 →
  Forall (λ t, (t ≤ t0 + 60000)%Z) later →
  MAX_CONNECTIONS_PER_MINUTE = 10
  ∧ RATE_LIMIT_WINDOW_MS = 60000%Z
  ∧ (attempt_all ip (t0 :: later) tbl).1 = replicate 10 true
  ∧ (∀ t, (t ≤ t0 + 60000)%Z →
       checkRateLimit t ip (attempt_all ip (t0 :: later) tbl).2
       = (false, (attempt_all ip (t0 :: later) tbl).2))
  ∧ (∀ t, (t > t0 + 60000)%Z →
       (checkRateLimit t ip (attempt_all ip (t0 :: later) tbl).2).1 = true
       ∧ (checkRateLimit t ip (attempt_all ip (t0 :: later) tbl).2).2 !! ip
         = Some {| count := 1; resetAt := (t + 60000)%Z |}).
Proof.
  intros Hfresh Hlen Hwin. split; [done|]. split; [done|].
  cbn [attempt_all]. rewrite checkRateLimit_fresh by done.
  change RATE_LIMIT_WINDOW_MS with 60000%Z.
  destruct (attempt_all_within ip later
              (<[ip := {| count := 1; resetAt := (t0 + 60000)%Z |}]> tbl)
              {| count := 1; resetAt := (t0 + 60000)%Z |})
    as [Hall Hentry];
    [apply lookup_insert_eq|done|rewrite Hlen; simpl; unfold MAX_CONNECTIONS_PER_MINUTE; lia|].
  destruct (attempt_all ip later _) as [rest tbl'].
  simpl in *. rewrite Hlen in Hall, Hentry. simpl in Hentry.
  split; [by rewrite Hall|]. split.
  - intros t Ht. unfold checkRateLimit. rewrite Hentry. cbn [count resetAt].
    rewrite decide_False by lia. by rewrite decide_True.
  - intros t Ht. rewrite checkRateLimit_fresh by (right; eauto).
    simpl. by rewrite lookup_insert_eq.
Qed.

Lemma rate_limit_window_witness :
  (attempt_all "10.0.0.7" [0; 1; 2; 3; 4; 5; 6; 7; 8; 60000]%Z ∅).1
    = replicate 10 true
  ∧ (checkRateLimit 60000
       "10.0.0.7" (attempt_all "10.0.0.7" [0; 1; 2; 3; 4; 5; 6; 7; 8; 60000]%Z ∅).2).1
    = false
  ∧ (checkRateLimit 60001
       "10.0.0.7" (attempt_all "10.0.0.7" [0; 1; 2; 3; 4; 5; 6; 7; 8; 60000]%Z ∅).2).1
    = true.
Proof.
  destruct (rate_limit_window "10.0.0.7" 0 [1; 2; 3; 4; 5; 6; 7; 8; 60000]%Z ∅)
    as (_ & _ & Hten & Hdeny & Hagain).
  - left. reflexivity.
  - reflexivity.
  - repeat constructor; lia.
  - split; [exact Hten|]. split.
    + rewrite (Hdeny 60000%Z); [reflexivity|lia].
    + apply (Hagain 60001%Z). lia.
Defined.

Lemma checkRateLimit_bounded now ip tbl :
  counts_bounded tbl → counts_bounded (checkRateLimit now ip tbl).2.
Proof.
  intros Hb. unfold checkRateLimit.
  destruct (tbl !! ip) as [existing|] eqn:E.
  - case_decide; [|case_decide]; simpl; [|done|].
    + intros ip' e. destruct (decide (ip' = ip)) as [->|Hne].
      * rewrite lookup_insert_eq. intros [= <-]. simpl.
        unfold MAX_CONNECTIONS_PER_MINUTE. lia.
      * rewrite lookup_insert_ne by done. apply Hb.
    + intros ip' e. destruct (decide (ip' = ip)) as [->|Hne].
      * rewrite lookup_insert_eq. intros [= <-]. simpl. lia.
      * rewrite lookup_insert_ne by done. apply Hb.
  - simpl. intros ip' e. destruct (decide (ip' = ip)) as [->|Hne].
    + rewrite lookup_insert_eq. intros [= <-]. simpl.
      unfold MAX_CONNECTIONS_PER_MINUTE. lia.
    + rewrite lookup_insert_ne by done. apply Hb.
Qed.

Lemma cleanupRateLimits_bounded now tbl :
  counts_bounded tbl → counts_bounded (cleanupRateLimits now tbl).
Proof.
  intros Hb ip e. rewrite cleanupRateLimits_lookup.
  destruct (tbl !! ip) as [data|] eqn:E; [|done].
  case_decide; [done|]. intros [= <-]. by apply (Hb ip).
Qed.

Lemma rate_run_bounded evs : ∀ tbl,
  counts_bounded tbl → counts_bounded (rate_run evs tbl).
Proof.
  unfold rate_run. induction evs as [|ev evs IH]; intros tbl Hb; [done|].
  cbn [foldl]. apply IH. destruct ev as [now ip|now]; simpl.
  - by apply checkRateLimit_bounded.
  - by apply cleanupRateLimits_bounded.
Qed.

(** C7. Whatever attempts and sweep ticks happen, from whatever
    addresses, no entry of the table ever counts more than the ceiling.
    The reason is that an attempt that finds the count of its window at or
    above the ceiling is denied and changes nothing; and no attempt at all
    makes a count that had reached the ceiling any larger. *)
Theorem rate_count_never_exceeds_ceiling :
  (∀ evs ip entry,
     rate_run evs ∅ !! ip = Some entry →
     count entry ≤ MAX_CONNECTIONS_PER_MINUTE)
  ∧ (∀ now ip tbl entry,
       tbl !! ip = Some entry → (now ≤ resetAt entry)%Z →
       MAX_CONNECTIONS_PER_MINUTE ≤ count entry →
       checkRateLimit now ip tbl = (false, tbl))
  ∧ (∀ now ip tbl entry entry',
       tbl !! ip = Some entry →
       MAX_CONNECTIONS_PER_MINUTE ≤ count entry →
       (checkRateLimit now ip tbl).2 !! ip = Some entry' →
       count entry' ≤ count entry).
Proof.
  split; [|split].
  - intros evs ip entry He.
    apply (rate_run_bounded evs ∅) in He; [done|].
    intros ip' e. by rewrite lookup_empty.
  - intros now ip tbl entry He Hwin Hmax. unfold checkRateLimit. rewrite He.
    rewrite decide_False by lia. by rewrite decide_True.
  - intros now ip tbl entry entry' He Hmax. unfold checkRateLimit. rewrite He.
    case_decide; [|rewrite decide_True by done]; simpl.
    + rewrite lookup_insert_eq. intros [= <-]. simpl.
      unfold MAX_CONNECTIONS_PER_MINUTE in Hmax. lia.
    + rewrite He. by intros [= <-].
Qed.

Lemma rate_count_never_exceeds_ceiling_witness :
  ∃ entry,
    rate_run (replicate 25 (Attempt 5 "10.0.0.7")) ∅ !! "10.0.0.7" = Some entry
    ∧ count entry ≤ MAX_CONNECTIONS_PER_MINUTE
    ∧ checkRateLimit 6 "10.0.0.7" {[ "10.0.0.7" := {| count := 10; resetAt := 60005 |} ]}
      = (false, {[ "10.0.0.7" := {| count := 10; resetAt := 60005 |} ]}).
Proof.
  destruct rate_count_never_exceeds_ceiling as (Hinv & Hdeny & _).
  exists {| count := 10; resetAt := 60005 |}.
  assert (rate_run (replicate 25 (Attempt 5 "10.0.0.7")) ∅ !! "10.0.0.7"
          = Some {| count := 10; resetAt := 60005 |}) as Hrun
    by (vm_compute; reflexivity).
  split; [exact Hrun|]. split.
  - exact (Hinv _ _ _ Hrun).
  - eapply Hdeny.
    + vm_compute. reflexivity.
    + simpl. lia.
    + simpl. unfold MAX_CONNECTIONS_PER_MINUTE. lia.
Defined.

End RateLimitClaims.

(** ** Claim about the authentication middleware *)

Section AuthClaims.
Import Rooms Auth.

Variable verifyIdToken : string → option DecodedIdToken.
Variable findUserByFirebaseUid : string → Lookup.

(** C6. An attempt that passes the rate limit, carries a non-empty string
    as token, whose token the identity provider verifies, and whose uid
    resolves to a user: when the user is active the middleware accepts and
    attaches a session whose subject id is the id of that user, whose roles
    contain ["admin"] exactly when the decoded token carries the admin
    claim, and whose room set is empty; when the user is inactive it
    rejects with [account_inactive] and attaches no session. *)
Theorem authentication_of_resolved_user now connected ip tok tbl decoded user :
  (checkRateLimit now ip tbl).1 = true →
  tok ≠ "" →
  verifyIdToken tok = Some decoded →
  findUserByFirebaseUid (uid decoded) = LookupFound user →
  (isActive user = true →
     ∃ data,
       (socketAuthMiddleware verifyIdToken findUserByFirebaseUid now connected
          {| address := ip; token := JsStr tok |} tbl).1 = Accepted data
       ∧ odv data = user_id user
       ∧ userId data = user_id user
       ∧ firebaseUid data = uid decoded
       ∧ ("admin" ∈ roles data ↔ admin decoded = true)
       ∧ sd_rooms data = ∅)
  ∧ (isActive user = false →
       (socketAuthMiddleware verifyIdToken findUserByFirebaseUid now connected
          {| address := ip; token := JsStr tok |} tbl).1
       = Rejected "account_inactive").
Proof.
  intros Hrate Htok Hverify Hlookup.
  unfold socketAuthMiddleware. cbn [address token].
  destruct (checkRateLimit now ip tbl) as [allowed tbl'].
  simpl in Hrate. subst allowed. cbn [negb].
  apply falsy_false in Htok. rewrite Htok, Hverify, Hlookup.
  split; intros Hactive; rewrite Hactive; cbn [negb fst].
  - eexists. split; [reflexivity|]. cbn.
    repeat split; try done.
    + destruct (admin decoded); [done|]. intros Hin. by apply elem_of_nil in Hin.
    + intros ->. by apply list_elem_of_singleton.
  - reflexivity.
Qed.

End AuthClaims.

Section AuthWitness.
Import Rooms Auth.

Lemma authentication_of_resolved_user_witness :
  let verify := λ tok : string,
    if decide (tok = "good-token")
    then Some {| uid := "fb-1"; admin := true |} else None in
  let active := λ _ : string, LookupFound {| user_id := "u1"; isActive := true |} in
  let inactive := λ _ : string, LookupFound {| user_id := "u1"; isActive := false |} in
  (∃ data,
     (socketAuthMiddleware verify active 100 101
        {| address := "10.0.0.7"; token := JsStr "good-token" |} ∅).1
     = Accepted data
     ∧ odv data = "u1" ∧ "admin" ∈ roles data)
  ∧ (socketAuthMiddleware verify inactive 100 101
       {| address := "10.0.0.7"; token := JsStr "good-token" |} ∅).1
    = Rejected "account_inactive".
Proof.
  intros verify active inactive. split.
  - destruct (authentication_of_resolved_user verify active 100 101
                "10.0.0.7" "good-token" ∅
                {| uid := "fb-1"; admin := true |}
                {| user_id := "u1"; isActive := true |})
      as [Hok _]; [reflexivity|discriminate|reflexivity|reflexivity|].
    destruct (Hok eq_refl) as (data & Hres & Hodv & _ & _ & Hadmin & _).
    exists data. split; [exact Hres|]. split; [exact Hodv|].
    apply Hadmin. reflexivity.
  - destruct (authentication_of_resolved_user verify inactive 100 101
                "10.0.0.7" "good-token" ∅
                {| uid := "fb-1"; admin := true |}
                {| user_id := "u1"; isActive := false |})
      as [_ Hno]; [reflexivity|discriminate|reflexivity|reflexivity|].
    apply Hno. reflexivity.
Defined.

End AuthWitness.

(** ** Claim about the statistics *)

Section StatsClaims.
Import Rooms Gateway Scenario.

Implicit Types (rooms : gmap string RoomInfo).

(** Counting the entries that satisfy a condition, one insertion at a
    time. *)
Lemma count_insert (P : string * RoomInfo → Prop) `{!∀ kr, Decision (P kr)}
    rooms key room :
  rooms !! key = None →
  size (filter P (<[key := room]> rooms))
  = (if decide (P (key, room)) then 1 else 0) + size (filter P rooms).
Proof.
  intros Hnone. rewrite map_filter_insert. case_decide.
  - rewrite map_size_insert_None; [done|].
    apply map_lookup_filter_None. by left.
  - by rewrite delete_id.
Qed.

Lemma member_total_empty : member_total ∅ = 0.
Proof. unfold member_total. by rewrite map_to_list_empty. Qed.

Lemma member_total_insert rooms key room :
  rooms !! key = None →
  member_total (<[key := room]> rooms)
  = size (members room) + member_total rooms.
Proof.
  intros Hnone. unfold member_total.
  by rewrite map_to_list_insert.
Qed.

(** The number of rooms of a type, counted on the list of rooms. *)
Lemma rooms_of_type_values type rooms :
  rooms_of_type type rooms
  = length (filter (λ room, room_type room = type) (map_to_list rooms).*2).
Proof.
  unfold rooms_of_type.
  induction rooms as [|key room rooms Hnone IH] using map_ind.
  - by rewrite map_filter_empty, map_size_empty, map_to_list_empty.
  - rewrite count_insert by done. rewrite map_to_list_insert by done.
    rewrite fmap_cons, filter_cons, IH. cbn [snd].
    by repeat case_decide.
Qed.

Lemma incr_byType_battle type b :
  battle (incr_byType type b)
  = (if decide (type = "battle") then 1 else 0) + battle b.
Proof. unfold incr_byType. repeat case_decide; subst; done. Qed.

Lemma incr_byType_game type b :
  game (incr_byType type b)
  = (if decide (type = "game") then 1 else 0) + game b.
Proof. unfold incr_byType. repeat case_decide; subst; done. Qed.

Lemma incr_byType_spot type b :
  spot (incr_byType type b)
  = (if decide (type = "spot") then 1 else 0) + spot b.
Proof. unfold incr_byType. repeat case_decide; subst; done. Qed.

Lemma incr_byType_global type b :
  global (incr_byType type b)
  = (if decide (type = "global") then 1 else 0) + global b.
Proof. unfold incr_byType. repeat case_decide; subst; done. Qed.

(** What the loop of [getRoomStats] adds to its accumulator while it
    visits a list of rooms. *)
Lemma stats_loop order : ∀ acc,
  battle (foldl stats_step acc order).1
  = battle acc.1 + length (filter (λ room, room_type room = "battle") order)
  ∧ game (foldl stats_step acc order).1
    = game acc.1 + length (filter (λ room, room_type room = "game") order)
  ∧ spot (foldl stats_step acc order).1
    = spot acc.1 + length (filter (λ room, room_type room = "spot") order)
  ∧ global (foldl stats_step acc order).1
    = global acc.1 + length (filter (λ room, room_type room = "global") order)
  ∧ (foldl stats_step acc order).2
    = acc.2 + sum_list_with (λ room, size (members room)) order.
Proof.
  induction order as [|room order IH]; intros acc; cbn [foldl].
  - rewrite !filter_nil. simpl. repeat split; lia.
  - destruct (IH (stats_step acc room)) as (Hb & Hg & Hs & Hgl & Ht).
    rewrite Hb, Hg, Hs, Hgl, Ht. rewrite !filter_cons.
    cbn [stats_step fst snd sum_list_with].
    rewrite incr_byType_battle, incr_byType_game, incr_byType_spot,
      incr_byType_global.
    repeat split; repeat case_decide; simpl; lia.
Qed.

(** The snapshot, whatever the order in which the rooms are visited. *)
Lemma getRoomStats_in_spec order rooms :
  order ≡ₚ (map_to_list rooms).*2 →
  getRoomStats_in order rooms
  = {| totalRooms := size rooms;
       totalMembers := member_total rooms;
       byType := {| battle := rooms_of_type "battle" rooms;
                    game := rooms_of_type "game" rooms;
                    spot := rooms_of_type "spot" rooms;
                    global := rooms_of_type "global" rooms |} |}.
Proof.
  intros Hperm. unfold getRoomStats_in. cbv zeta.
  destruct (stats_loop order
              ({| battle := 0; game := 0; spot := 0; global := 0 |}, 0))
    as (Hb & Hg & Hs & Hgl & Ht).
  destruct (foldl stats_step _ order) as [[b g s gl] total].
  cbn [fst snd battle game spot global] in *.
  rewrite !rooms_of_type_values. unfold member_total.
  rewrite <-!Hperm. by subst.
Qed.

Lemma getRoomStats_any_order order rooms :
  order ≡ₚ (map_to_list rooms).*2 →
  getRoomStats_in order rooms = getRoomStats rooms.
Proof.
  intros Hperm. unfold getRoomStats.
  by rewrite !getRoomStats_in_spec.
Qed.

Lemma drop_member_size (u : string) (ms : gset string) :
  size ms = size (ms ∖ {[u]}) + (if decide (u ∈ ms) then 1 else 0).
Proof.
  case_decide as Hu.
  - rewrite size_difference by (by apply singleton_subseteq_l).
    rewrite size_singleton.
    assert (size ms ≠ 0); [|lia].
    intros Hz. apply size_empty_inv in Hz.
    apply (not_elem_of_empty (C:=gset string) u). by rewrite <-Hz.
  - rewrite difference_disjoint_L; [lia|]. by apply disjoint_singleton_r.
Qed.

(** A subject adds one to the total for every room it is a member of. *)
Lemma member_total_subject u rooms :
  member_total rooms = member_total (without_subject u rooms) + rooms_with u rooms.
Proof.
  unfold without_subject, rooms_with.
  induction rooms as [|key room rooms Hnone IH] using map_ind.
  - by rewrite fmap_empty, map_filter_empty, map_size_empty, member_total_empty.
  - rewrite fmap_insert.
    rewrite !member_total_insert by (by rewrite ?lookup_fmap, Hnone).
    rewrite count_insert by done. rewrite IH. cbn [snd drop_member set_members members].
    rewrite (drop_member_size u (members room)). lia.
Qed.

(** C10. [getRoomStats] reports as [totalRooms] the number of rooms in the
    registry, in [byType] for each of the four types the number of rooms
    of that type (rooms, not members), and as [totalMembers] the sum of
    the sizes of the member sets, to which a subject contributes one for
    each room it is a member of. It is a function of the registry alone
    and yields no registry: the loop only reads. *)
Theorem room_stats_snapshot rooms :
  totalRooms (getRoomStats rooms) = size rooms
  ∧ battle (byType (getRoomStats rooms)) = rooms_of_type "battle" rooms
  ∧ game (byType (getRoomStats rooms)) = rooms_of_type "game" rooms
  ∧ spot (byType (getRoomStats rooms)) = rooms_of_type "spot" rooms
  ∧ global (byType (getRoomStats rooms)) = rooms_of_type "global" rooms
  ∧ totalMembers (getRoomStats rooms) = member_total rooms
  ∧ (∀ subject,
       totalMembers (getRoomStats rooms)
       = totalMembers (getRoomStats (without_subject subject rooms))
         + rooms_with subject rooms).
Proof.
  unfold getRoomStats. rewrite getRoomStats_in_spec by done.
  cbn [totalRooms totalMembers byType battle game spot global].
  repeat (split; [done|]).
  intros subject. rewrite getRoomStats_in_spec by done.
  cbn [totalMembers]. apply member_total_subject.
Qed.

(** Two spot rooms and one battle room; alice is in all three, bob in
    one: three rooms, four memberships. *)
Example room_stats_example :
  getRoomStats
    (w_rooms (run [Join 1 0 "spot" "park"; Resume 0 [];
                   Join 1 1 "spot" "bowl"; Resume 0 [];
                   Join 1 2 "battle" "b1"; Join 2 3 "battle" "b1";
                   Resume 1 []; Resume 0 []]
                  (initial three_sockets)))
  = {| totalRooms := 3; totalMembers := 4;
       byType := {| battle := 1; game := 0; spot := 2; global := 0 |} |}.
Proof. vm_compute. reflexivity. Qed.

End StatsClaims.

(** * Further properties of the room registry *)

(** ** One join, one leave *)

Section JoinLeave.
Import JsString Rooms Gateway Scenario.

Implicit Types (rooms : gmap string RoomInfo) (data : SocketData).

Lemma fresh_room_not_at_capacity now type id :
  ¬ at_capacity type
      {| room_type := type; room_id := id; members := ∅; createdAt := now |}.
Proof.
  unfold at_capacity, ROOM_LIMITS. cbn [members]. rewrite size_empty.
  repeat case_decide; lia.
Qed.

(** [joinRoom] answers [false] exactly when the room exists and its member
    count has reached the limit of the requested type. A room that does not
    exist yet is therefore never refused, and only battle, game and spot
    rooms ever refuse: a global room, or a type the limit table does not
    have, is never checked. *)
Theorem joinRoom_refuses_only_full_rooms now data type id rooms :
  ((joinRoom now data type id rooms).1.1 = false
   ↔ ∃ room, rooms !! getRoomId type id = Some room ∧ at_capacity type room)
  ∧ ((joinRoom now data type id rooms).1.1 = false →
     type = "battle" ∨ type = "game" ∨ type = "spot").
Proof.
  assert ((joinRoom now data type id rooms).1.1 = false
          ↔ ∃ room, rooms !! getRoomId type id = Some room ∧ at_capacity type room)
    as Hiff.
  { destruct (rooms !! getRoomId type id) as [room|] eqn:E.
    - rewrite (joinRoom_existing _ _ _ _ _ _ E).
      destruct (size_ge_limit _ _) eqn:Hfull; simpl.
      + split; [|done]. intros _. exists room. split; [done|].
        by apply size_ge_limit_at_capacity.
      + split; [done|]. intros (room' & [= <-] & Hcap).
        apply size_ge_limit_at_capacity in Hcap. congruence.
    - unfold joinRoom, getOrCreateRoom. rewrite E. cbv beta iota zeta.
      destruct (size_ge_limit _ _) eqn:Hfull; simpl.
      + apply size_ge_limit_at_capacity in Hfull.
        by apply fresh_room_not_at_capacity in Hfull.
      + split; [done|]. by intros (room' & [=] & _). }
  split; [done|]. rewrite Hiff. intros (room & _ & Hcap).
  unfold at_capacity, ROOM_LIMITS in Hcap. repeat case_decide; tauto.
Qed.

(** A successful join: the room is in the registry under its key afterwards
    and lists the subject, its members are the former ones and the subject,
    a room that existed keeps its type, id and creation time, the session
    gains the key, and no other room changes. *)
Theorem joinRoom_accepted now data type id rooms data' rooms' :
  joinRoom now data type id rooms = (true, data', rooms') →
  (∃ room',
     getRoomInfo type id rooms' = Some room'
     ∧ members room'
       = {[odv data]} ∪ default ∅ (members <$> getRoomInfo type id rooms)
     ∧ (∀ room, getRoomInfo type id rooms = Some room →
          room_type room' = room_type room ∧ room_id room' = room_id room
          ∧ createdAt room' = createdAt room)
     ∧ (getRoomInfo type id rooms = None →
          room_type room' = type ∧ room_id room' = id ∧ createdAt room' = now))
  ∧ data' = set_sd_rooms ({[getRoomId type id]} ∪ sd_rooms data) data
  ∧ (∀ key, key ≠ getRoomId type id → rooms' !! key = rooms !! key).
Proof.
  unfold joinRoom, getOrCreateRoom, getRoomInfo.
  destruct (rooms !! getRoomId type id) as [room|] eqn:E;
    cbv beta iota zeta; destruct (size_ge_limit _ _); intros [= <- <-].
  - split; [|split; [done|]].
    + eexists. split; [apply lookup_insert_eq|].
      split; [done|]. split; [|done]. by intros ? [= <-].
    + intros key Hne. by rewrite lookup_insert_ne.
  - split; [|split; [done|]].
    + eexists. split; [apply lookup_insert_eq|].
      split; [done|]. split; [done|]. done.
    + intros key Hne. by rewrite !lookup_insert_ne.
Qed.

Lemma joinRoom_accepted_witness :
  ∃ room',
    getRoomInfo "spot" "park"
      (joinRoom 9 (session "bob") "spot" "park"
         {[ "spot:park" := {| room_type := "spot"; room_id := "park";
                              members := {[ "alice" ]}; createdAt := 4 |} ]}).2
    = Some room'
    ∧ createdAt room' = 4%Z.
Proof.
  destruct (joinRoom 9 (session "bob") "spot" "park"
              {[ "spot:park" := {| room_type := "spot"; room_id := "park";
                                   members := {[ "alice" ]}; createdAt := 4 |} ]})
    as [[j data'] rooms'] eqn:E.
  assert (j = true) as -> by (vm_compute in E; by injection E as <- _ _).
  destruct (joinRoom_accepted _ _ _ _ _ _ _ E)
    as ((room' & Hinfo & _ & Hkeep & _) & _ & _).
  exists room'. split; [exact Hinfo|].
  destruct (Hkeep {| room_type := "spot"; room_id := "park";
                     members := {[ "alice" ]}; createdAt := 4 |})
    as (_ & _ & Hc); [vm_compute; reflexivity|exact Hc].
Defined.

(** [leaveRoom] in full: the session loses the key; a room under that key
    stays in the registry with the same type, id and creation time and
    with the subject removed from its members, whether or not the subject
    was a member; when there is no such room the registry is not touched;
    and no other room changes. *)
Theorem leaveRoom_effect data type id rooms :
  (leaveRoom data type id rooms).1
    = set_sd_rooms (sd_rooms data ∖ {[getRoomId type id]}) data
  ∧ getRoomInfo type id (leaveRoom data type id rooms).2
    = drop_member (odv data) <$> getRoomInfo type id rooms
  ∧ (getRoomInfo type id rooms = None → (leaveRoom data type id rooms).2 = rooms)
  ∧ (∀ room, getRoomInfo type id rooms = Some room → odv data ∉ members room →
       (leaveRoom data type id rooms).2 = rooms)
  ∧ (∀ key, key ≠ getRoomId type id →
       (leaveRoom data type id rooms).2 !! key = rooms !! key).
Proof.
  unfold getRoomInfo. split; [done|]. split; [|split; [|split]].
  - by rewrite leaveRoom_lookup, decide_True.
  - intros Hnone. unfold leaveRoom. by rewrite Hnone.
  - intros room Hr Hnot. unfold leaveRoom. rewrite Hr. cbn [snd].
    apply insert_id. rewrite Hr. f_equal.
    rewrite difference_disjoint_L by (by apply disjoint_singleton_r).
    by destruct room.
  - intros key Hne. by rewrite leaveRoom_lookup, decide_False.
Qed.

Lemma leaveRoom_effect_witness :
  (leaveRoom (session "alice") "game" "g7" ∅).2 = ∅.
Proof.
  destruct (leaveRoom_effect (session "alice") "game" "g7" ∅)
    as (_ & _ & Hmissing & _).
  apply Hmissing. reflexivity.
Defined.

Lemma drop_twice (x : string) (X : gset string) :
  (X ∖ {[x]}) ∖ {[x]} = X ∖ {[x]}.
Proof. apply set_eq. intros y. rewrite !elem_of_difference. tauto. Qed.

Lemma add_then_drop (x : string) (X : gset string) :
  x ∉ X → ({[x]} ∪ X) ∖ {[x]} = X.
Proof.
  intros Hx. apply set_eq. intros y.
  rewrite elem_of_difference, elem_of_union, elem_of_singleton.
  split; [tauto|]. intros Hy. split; [tauto|]. by intros ->.
Qed.

(** Leaving twice is leaving once. *)
Theorem leaveRoom_idempotent data type id rooms :
  leaveRoom (leaveRoom data type id rooms).1 type id
            (leaveRoom data type id rooms).2
  = leaveRoom data type id rooms.
Proof.
  unfold leaveRoom.
  destruct (rooms !! getRoomId type id) as [room|] eqn:E; cbn [fst snd].
  - rewrite lookup_insert_eq, insert_insert_eq. f_equal.
    + unfold set_sd_rooms. cbn. by rewrite drop_twice.
    + f_equal. unfold set_members. cbn. by rewrite drop_twice.
  - rewrite E. f_equal. unfold set_sd_rooms. cbn. by rewrite drop_twice.
Qed.

(** A join that is accepted, undone by a leave: when the session did not
    hold the key and the subject was not yet a member, the session is as
    before, and so is the registry when the room existed; a room that the
    join created stays behind, empty. *)
Theorem join_then_leave now data type id rooms data' rooms' :
  joinRoom now data type id rooms = (true, data', rooms') →
  getRoomId type id ∉ sd_rooms data →
  (∀ room, rooms !! getRoomId type id = Some room → odv data ∉ members room) →
  (leaveRoom data' type id rooms').1 = data
  ∧ (∀ room, rooms !! getRoomId type id = Some room →
       (leaveRoom data' type id rooms').2 = rooms)
  ∧ (rooms !! getRoomId type id = None →
       (leaveRoom data' type id rooms').2
       = <[getRoomId type id :=
             {| room_type := type; room_id := id;
                members := ∅; createdAt := now |}]> rooms).
Proof.
  intros Hjoin Hkey Hmem. revert Hjoin.
  unfold joinRoom, getOrCreateRoom.
  destruct (rooms !! getRoomId type id) as [room|] eqn:E;
    cbv beta iota zeta; destruct (size_ge_limit _ _);
    intros [= <- <-]; unfold leaveRoom; rewrite lookup_insert_eq;
    cbn [fst snd].
  - split; [|split; [|done]].
    + unfold set_sd_rooms. cbn. rewrite add_then_drop by done. by destruct data.
    + intros ? [= <-]. rewrite insert_insert_eq. apply insert_id.
      rewrite E. f_equal. unfold set_members. cbn.
      rewrite add_then_drop by (by apply Hmem). by destruct room.
  - split; [|split; [done|]].
    + unfold set_sd_rooms. cbn. rewrite add_then_drop by done. by destruct data.
    + intros _. rewrite !insert_insert_eq. f_equal.
      unfold set_members. cbn. f_equal. apply add_then_drop, not_elem_of_empty.
Qed.

Lemma join_then_leave_witness :
  (leaveRoom (joinRoom 3 (session "alice") "battle" "b1" ∅).1.2 "battle" "b1"
             (joinRoom 3 (session "alice") "battle" "b1" ∅).2).1
  = session "alice".
Proof.
  destruct (joinRoom 3 (session "alice") "battle" "b1" ∅)
    as [[j data'] rooms'] eqn:E.
  assert (j = true) as -> by (vm_compute in E; by injection E as <- _ _).
  apply (join_then_leave _ _ _ _ _ _ _ E).
  - apply not_elem_of_empty.
  - intros room Hr. by rewrite lookup_empty in Hr.
Defined.

End JoinLeave.

Section JoinLeaveWitness.
Import Rooms Gateway Scenario.

Lemma joinRoom_refuses_only_full_rooms_witness :
  (joinRoom 5 (session "carol") "global" "lobby"
     {[ "global:lobby" := {| room_type := "global"; room_id := "lobby";
                             members := {[ "alice"; "bob" ]};
                             createdAt := 0 |} ]}).1.1 ≠ false.
Proof.
  intros Hfalse.
  destruct (proj2 (joinRoom_refuses_only_full_rooms _ _ _ _ _) Hfalse)
    as [Ht|[Ht|Ht]]; discriminate Ht.
Defined.

End JoinLeaveWitness.

(** ** Listing and counting rooms *)

Section Listing.
Import Rooms Gateway Scenario.

Implicit Types (rooms : gmap string RoomInfo).

Lemma elem_of_values rooms room :
  room ∈ (map_to_list rooms).*2 ↔ ∃ key, rooms !! key = Some room.
Proof.
  rewrite list_elem_of_fmap. split.
  - intros ([key r] & -> & Hin). exists key. by apply elem_of_map_to_list.
  - intros (key & Hr). exists (key, room). split; [done|].
    by apply elem_of_map_to_list.
Qed.

(** [getRoomsByType] returns exactly the rooms of the registry that have
    the requested type, each once, in whatever order the map is iterated;
    for each of the four room types their number is the counter that
    [getRoomStats] reports under [byType]. *)
Theorem getRoomsByType_lists_the_type type rooms :
  (∀ room, room ∈ getRoomsByType type rooms
           ↔ room_type room = type ∧ ∃ key, rooms !! key = Some room)
  ∧ (∀ order, order ≡ₚ (map_to_list rooms).*2 →
       getRoomsByType_in order type ≡ₚ getRoomsByType type rooms)
  ∧ length (getRoomsByType type rooms) = rooms_of_type type rooms
  ∧ battle (byType (getRoomStats rooms)) = length (getRoomsByType "battle" rooms)
  ∧ game (byType (getRoomStats rooms)) = length (getRoomsByType "game" rooms)
  ∧ spot (byType (getRoomStats rooms)) = length (getRoomsByType "spot" rooms)
  ∧ global (byType (getRoomStats rooms)) = length (getRoomsByType "global" rooms).
Proof.
  unfold getRoomsByType, getRoomsByType_in. split; [|split; [|split]].
  - intros room. rewrite list_elem_of_filter, elem_of_values. done.
  - intros order Hperm. by rewrite Hperm.
  - by rewrite rooms_of_type_values.
  - unfold getRoomStats. rewrite getRoomStats_in_spec by done.
    cbn [byType battle game spot global].
    by rewrite !rooms_of_type_values.
Qed.

Lemma getRoomsByType_lists_the_type_witness :
  [{| room_type := "spot"; room_id := "park";
      members := {[ "alice" ]}; createdAt := 4 |}]
  ≡ₚ getRoomsByType "spot"
       {[ "spot:park" := {| room_type := "spot"; room_id := "park";
                            members := {[ "alice" ]}; createdAt := 4 |};
          "game:g" := {| room_type := "game"; room_id := "g";
                         members := ∅; createdAt := 5 |} ]}.
Proof.
  apply (proj1 (proj2 (getRoomsByType_lists_the_type "spot" _))
           [{| room_type := "game"; room_id := "g";
               members := ∅; createdAt := 5 |};
            {| room_type := "spot"; room_id := "park";
               members := {[ "alice" ]}; createdAt := 4 |}]).
  vm_compute. first [reflexivity | apply Permutation_swap].
Defined.

(** One insertion into a registry adds one to its size and to the counter
    of at most one type. *)
Lemma type_counts_sum rooms :
  rooms_of_type "battle" rooms + rooms_of_type "game" rooms
  + rooms_of_type "spot" rooms + rooms_of_type "global" rooms ≤ size rooms
  ∧ ((∀ key room, rooms !! key = Some room → is_room_type (room_type room) = true) →
     rooms_of_type "battle" rooms + rooms_of_type "game" rooms
     + rooms_of_type "spot" rooms + rooms_of_type "global" rooms = size rooms).
Proof.
  unfold rooms_of_type.
  induction rooms as [|key room rooms Hnone [IHle IHeq]] using map_ind.
  - rewrite !map_filter_empty, map_size_empty. split; [lia|done].
  - rewrite !count_insert by done. rewrite map_size_insert_None by done.
    cbn [snd]. split.
    + repeat case_decide; try lia; congruence.
    + intros Htyped.
      assert (is_room_type (room_type room) = true) as Ht
        by (apply (Htyped key); apply lookup_insert_eq).
      rewrite <-IHeq.
      * apply room_type_cases in Ht.
        destruct Ht as [Ht|[Ht|[Ht|Ht]]]; rewrite Ht;
          repeat case_decide; try congruence; lia.
      * intros k r Hr. apply (Htyped k). rewrite lookup_insert_ne; [done|].
        intros <-. congruence.
Qed.

(** The four [byType] counters never add up to more than [totalRooms],
    and in every registry that joins with a room type have built they add
    up to exactly [totalRooms]. *)
Theorem byType_adds_up_to_totalRooms :
  (∀ rooms,
     battle (byType (getRoomStats rooms)) + game (byType (getRoomStats rooms))
     + spot (byType (getRoomStats rooms)) + global (byType (getRoomStats rooms))
     ≤ totalRooms (getRoomStats rooms))
  ∧ (∀ sockets ops, Forall well_typed ops →
       let stats := getRoomStats (w_rooms (run ops (initial sockets))) in
       battle (byType stats) + game (byType stats)
       + spot (byType stats) + global (byType stats) = totalRooms stats).
Proof.
  split.
  - intros rooms. unfold getRoomStats. rewrite getRoomStats_in_spec by done.
    cbn [byType battle game spot global totalRooms].
    apply type_counts_sum.
  - intros sockets ops Hops. cbv zeta.
    unfold getRoomStats. rewrite getRoomStats_in_spec by done.
    cbn [byType battle game spot global totalRooms].
    apply type_counts_sum. intros key room Hr.
    assert (registry_keyed (w_rooms (run ops (initial sockets)))) as Hok.
    { apply run_keyed; [done|]. apply registry_keyed_empty. }
    by destruct (Hok _ _ Hr) as (? & _).
Qed.

Lemma byType_adds_up_to_totalRooms_witness :
  let stats :=
    getRoomStats
      (w_rooms (run [Join 1 0 "spot" "park"; Join 2 1 "game" "g";
                     Resume 1 []; Join 3 2 "spot" "bowl"; Sweep;
                     Resume 0 []; Resume 0 []] (initial three_sockets))) in
  battle (byType stats) + game (byType stats)
  + spot (byType stats) + global (byType stats) = totalRooms stats.
Proof.
  apply (proj2 byType_adds_up_to_totalRooms). repeat constructor.
Defined.

(** The sweep as a filter. *)
Lemma cleanupEmptyRooms_filter rooms :
  cleanupEmptyRooms rooms = filter (λ kr, size (members kr.2) ≠ 0) rooms.
Proof.
  apply map_eq. intros key. rewrite cleanupEmptyRooms_lookup.
  destruct (rooms !! key) as [room|] eqn:E.
  - case_decide as Hs.
    + symmetry. apply map_lookup_filter_None. right. intros r Hr.
      rewrite E in Hr. injection Hr as <-. simpl. lia.
    + symmetry. by apply map_lookup_filter_Some.
  - symmetry. apply map_lookup_filter_None. by left.
Qed.

Lemma member_total_sweep rooms :
  member_total (cleanupEmptyRooms rooms) = member_total rooms.
Proof.
  rewrite cleanupEmptyRooms_filter.
  induction rooms as [|key room rooms Hnone IH] using map_ind.
  - by rewrite map_filter_empty.
  - rewrite map_filter_insert. rewrite member_total_insert by done.
    case_decide as Hs; simpl in Hs.
    + rewrite member_total_insert; [by rewrite IH|].
      apply map_lookup_filter_None. by left.
    + rewrite delete_id by done. rewrite IH. lia.
Qed.

(** The sweep and the statistics: a sweep never changes [totalMembers],
    never raises [totalRooms], and sweeping a second time changes
    nothing. *)
Theorem sweep_keeps_totalMembers rooms :
  totalMembers (getRoomStats (cleanupEmptyRooms rooms))
    = totalMembers (getRoomStats rooms)
  ∧ totalRooms (getRoomStats (cleanupEmptyRooms rooms))
    ≤ totalRooms (getRoomStats rooms)
  ∧ cleanupEmptyRooms (cleanupEmptyRooms rooms) = cleanupEmptyRooms rooms.
Proof.
  unfold getRoomStats. rewrite !getRoomStats_in_spec by done.
  cbn [totalMembers totalRooms]. split; [apply member_total_sweep|]. split.
  - rewrite cleanupEmptyRooms_filter. apply map_size_filter.
  - apply map_eq. intros key. rewrite !cleanupEmptyRooms_lookup.
    destruct (rooms !! key) as [room|]; [|done].
    case_decide as Hs; [done|]. by rewrite decide_False.
Qed.

End Listing.

(** * Further properties of the rate limiter and the middleware *)

Section RateLimiter.
Import Auth.

Implicit Types (tbl : gmap string RateEntry).

Lemma cleanupRateLimits_Some now tbl ip entry :
  cleanupRateLimits now tbl !! ip = Some entry
  ↔ tbl !! ip = Some entry ∧ (now ≤ resetAt entry)%Z.
Proof.
  rewrite cleanupRateLimits_lookup. destruct (tbl !! ip) as [e|].
  - case_decide as Hexp; split.
    + discriminate.
    + intros [[= <-] Hlive]. lia.
    + intros [= <-]. split; [done|lia].
    + by intros [? _].
  - split; [discriminate|]. by intros [? _].
Qed.

(** An entry whose window is still open survives a sweep where it is. *)
Lemma cleanupRateLimits_insert_live now tbl ip entry :
  (now ≤ resetAt entry)%Z →
  cleanupRateLimits now (<[ip := entry]> tbl)
  = <[ip := entry]> (cleanupRateLimits now tbl).
Proof.
  intros Hlive. apply map_eq. intros k. rewrite cleanupRateLimits_lookup.
  destruct (decide (k = ip)) as [->|Hne].
  - rewrite !lookup_insert_eq. by rewrite decide_False by lia.
  - rewrite !lookup_insert_ne by done. by rewrite cleanupRateLimits_lookup.
Qed.

(** The sweep of the rate-limit table keeps exactly the entries whose
    reset time has not passed, in whatever order it visits them, and a
    later sweep makes an earlier one redundant. *)
Theorem rate_sweep_drops_exactly_expired now tbl :
  (∀ ip entry,
     cleanupRateLimits now tbl !! ip = Some entry
     ↔ tbl !! ip = Some entry ∧ (now ≤ resetAt entry)%Z)
  ∧ (∀ order, order ≡ₚ map_to_list tbl →
       cleanupRateLimits_in order now tbl = cleanupRateLimits now tbl)
  ∧ (∀ later, (now ≤ later)%Z →
       cleanupRateLimits later (cleanupRateLimits now tbl)
       = cleanupRateLimits later tbl).
Proof.
  split; [|split].
  - apply cleanupRateLimits_Some.
  - intros order. apply cleanupRateLimits_any_order.
  - intros later Hle. apply map_eq. intros ip.
    rewrite !cleanupRateLimits_lookup.
    destruct (tbl !! ip) as [e|]; [|done].
    destruct (decide (now > resetAt e)%Z); [|done].
    by rewrite decide_True by lia.
Qed.

Lemma rate_sweep_drops_exactly_expired_witness :
  cleanupRateLimits 200
    (cleanupRateLimits 100
       {[ "10.0.0.7" := {| count := 3; resetAt := 150 |};
          "10.0.0.8" := {| count := 1; resetAt := 250 |} ]})
  = cleanupRateLimits 200
      {[ "10.0.0.7" := {| count := 3; resetAt := 150 |};
         "10.0.0.8" := {| count := 1; resetAt := 250 |} ]}.
Proof.
  apply (proj2 (proj2 (rate_sweep_drops_exactly_expired 100 _)) 200%Z). lia.
Defined.

(** The sweep cannot be observed through admission: an attempt made at or
    after the time of a sweep is decided the same way with and without the
    sweep, and it does not matter whether the sweep runs before or after
    the attempt. *)
Theorem rate_sweep_is_invisible swept now ip tbl :
  (swept ≤ now)%Z →
  (checkRateLimit now ip (cleanupRateLimits swept tbl)).1
    = (checkRateLimit now ip tbl).1
  ∧ (checkRateLimit now ip (cleanupRateLimits swept tbl)).2
    = cleanupRateLimits swept (checkRateLimit now ip tbl).2.
Proof.
  intros Hle. unfold checkRateLimit at 1 3.
  rewrite cleanupRateLimits_lookup.
  unfold checkRateLimit.
  assert (swept ≤ now + RATE_LIMIT_WINDOW_MS)%Z as Hfresh
    by (unfold RATE_LIMIT_WINDOW_MS; lia).
  destruct (tbl !! ip) as [e|] eqn:E.
  - destruct (decide (swept > resetAt e)%Z) as [Hgone|Hkept].
    + rewrite (decide_True (P:=(now > resetAt e)%Z)) by lia. cbn [fst snd].
      split; [done|]. by rewrite cleanupRateLimits_insert_live.
    + destruct (decide (now > resetAt e)%Z) as [Hexp|Hlive]; cbn [fst snd].
      * split; [done|]. by rewrite cleanupRateLimits_insert_live.
      * case_decide; cbn [fst snd]; [done|].
        split; [done|]. rewrite cleanupRateLimits_insert_live; [done|].
        simpl. lia.
  - cbn [fst snd]. split; [done|]. by rewrite cleanupRateLimits_insert_live.
Qed.

Lemma rate_sweep_is_invisible_witness :
  (checkRateLimit 300 "10.0.0.7"
     (cleanupRateLimits 200 {[ "10.0.0.7" := {| count := 10; resetAt := 150 |} ]})).1
  = (checkRateLimit 300 "10.0.0.7"
       {[ "10.0.0.7" := {| count := 10; resetAt := 150 |} ]}).1.
Proof.
  apply (rate_sweep_is_invisible 200 300). lia.
Defined.

(** The limiter is per address and its window is fixed: an attempt leaves
    the entries of all other addresses alone, always leaves an entry for
    its own address, and while the window of that entry is open it never
    moves the reset time and raises the count by one when it is allowed and
    not at all when it is denied. *)
Theorem checkRateLimit_window_is_fixed now ip tbl :
  (∀ other, other ≠ ip → (checkRateLimit now ip tbl).2 !! other = tbl !! other)
  ∧ is_Some ((checkRateLimit now ip tbl).2 !! ip)
  ∧ (∀ entry, tbl !! ip = Some entry → (now ≤ resetAt entry)%Z →
       (checkRateLimit now ip tbl).2 !! ip
       = Some {| count := if (checkRateLimit now ip tbl).1
                          then S (count entry) else count entry;
                 resetAt := resetAt entry |}).
Proof.
  unfold checkRateLimit. split; [|split].
  - intros other Hne. destruct (tbl !! ip) as [e|]; repeat case_decide;
      cbn [snd]; by rewrite ?lookup_insert_ne.
  - destruct (tbl !! ip) as [e|] eqn:E; repeat case_decide; cbn [snd];
      rewrite ?lookup_insert_eq, ?E; eauto.
  - intros entry He Hlive. rewrite He. rewrite decide_False by lia.
    case_decide; cbn [fst snd].
    + rewrite He. by destruct entry.
    + by rewrite lookup_insert_eq.
Qed.

Lemma checkRateLimit_window_is_fixed_witness :
  (checkRateLimit 59999 "10.0.0.7"
     {[ "10.0.0.7" := {| count := 4; resetAt := 60000 |} ]}).2 !! "10.0.0.7"
  = Some {| count := 5; resetAt := 60000 |}.
Proof.
  destruct (checkRateLimit_window_is_fixed 59999 "10.0.0.7"
              {[ "10.0.0.7" := {| count := 4; resetAt := 60000 |} ]})
    as (_ & _ & Hfixed).
  rewrite (Hfixed {| count := 4; resetAt := 60000 |});
    [reflexivity|vm_compute; reflexivity|simpl; lia].
Defined.

(** Reset times never lie more than one window after the latest event. *)
Lemma rate_run_resetAt_bounded evs : ∀ tbl latest,
  Forall (λ ev, (event_time ev ≤ latest)%Z) evs →
  (∀ ip entry, tbl !! ip = Some entry →
     (resetAt entry ≤ latest + RATE_LIMIT_WINDOW_MS)%Z) →
  ∀ ip entry, rate_run evs tbl !! ip = Some entry →
    (resetAt entry ≤ latest + RATE_LIMIT_WINDOW_MS)%Z.
Proof.
  unfold rate_run. induction evs as [|ev evs IH]; intros tbl latest Hevs Hb.
  - exact Hb.
  - apply Forall_cons in Hevs as [Hev Hevs]. cbn [foldl].
    apply IH; [done|]. intros ip entry. destruct ev as [now ip'|now]; simpl in *.
    + unfold checkRateLimit.
      destruct (tbl !! ip') as [e|] eqn:E; repeat case_decide; cbn [snd];
        try apply Hb;
        (destruct (decide (ip = ip')) as [->|Hne];
         [rewrite lookup_insert_eq; intros [= <-]; simpl;
          try (apply (Hb ip') in E); lia
         |rewrite lookup_insert_ne by done; apply Hb]).
    + intros [He _]%cleanupRateLimits_Some. by apply (Hb ip).
Qed.

(** No address stays locked out: whatever attempts and sweeps have
    happened up to some time, from whatever addresses, an attempt that
    arrives more than one window (60000 ms) after that time is allowed. *)
Theorem lockout_ends_after_one_window evs latest now ip :
  Forall (λ ev, (event_time ev ≤ latest)%Z) evs →
  (now > latest + 60000)%Z →
  (checkRateLimit now ip (rate_run evs ∅)).1 = true.
Proof.
  intros Hevs Hnow. unfold checkRateLimit.
  destruct (rate_run evs ∅ !! ip) as [e|] eqn:E; [|done].
  apply (rate_run_resetAt_bounded evs ∅ latest) in E;
    [|done|intros ? ?; by rewrite lookup_empty].
  unfold RATE_LIMIT_WINDOW_MS in E. by rewrite decide_True by lia.
Qed.

Lemma lockout_ends_after_one_window_witness :
  (checkRateLimit 60006 "10.0.0.7"
     (rate_run (replicate 25 (Attempt 5 "10.0.0.7")) ∅)).1 = true.
Proof.
  apply (lockout_ends_after_one_window _ 5); [|lia].
  apply Forall_replicate. simpl. lia.
Defined.

End RateLimiter.

Section Middleware.
Import Rooms Auth.

Variable verifyIdToken : string → option DecodedIdToken.
Variable findUserByFirebaseUid : string → Lookup.

Implicit Types (tbl : gmap string RateEntry) (handshake : Handshake).

(** The middleware passes the table through [checkRateLimit] once,
    whatever it answers. *)
Lemma middleware_table now connected handshake tbl :
  (socketAuthMiddleware verifyIdToken findUserByFirebaseUid
     now connected handshake tbl).2
  = (checkRateLimit now (address handshake) tbl).2.
Proof.
  unfold socketAuthMiddleware.
  destruct (checkRateLimit now (address handshake) tbl) as [[|] tbl'];
    cbn [negb snd]; [|done].
  destruct (token handshake) as [|tok|]; [done| |done].
  destruct (JsString.falsy tok); [done|].
  destruct (verifyIdToken tok) as [decoded|]; [|done].
  destruct (findUserByFirebaseUid (uid decoded)) as [| |user]; [done|done|].
  by destruct (isActive user).
Qed.

(** The middleware accepts only after every gate: the address was within
    its rate limit, the token is a non-empty string that the identity
    provider verifies, its uid resolves to a user, and that user is
    active. The session it attaches is built from that user and that token
    and holds no room; asked through [requireSocketAdmin], it is an admin
    session exactly when the token carries the admin claim. *)
Theorem middleware_accepts_only_after_every_gate
    now connected handshake tbl data :
  (socketAuthMiddleware verifyIdToken findUserByFirebaseUid
     now connected handshake tbl).1 = Accepted data →
  (checkRateLimit now (address handshake) tbl).1 = true
  ∧ ∃ tok decoded user,
      token handshake = JsStr tok ∧ tok ≠ ""
      ∧ verifyIdToken tok = Some decoded
      ∧ findUserByFirebaseUid (uid decoded) = LookupFound user
      ∧ isActive user = true
      ∧ userId data = user_id user ∧ odv data = user_id user
      ∧ firebaseUid data = uid decoded
      ∧ connectedAt data = connected
      ∧ sd_rooms data = ∅
      ∧ requireSocketAdmin (Some data) = admin decoded.
Proof.
  unfold socketAuthMiddleware.
  destruct (checkRateLimit now (address handshake) tbl) as [[|] tbl'];
    cbn [negb fst]; [|done].
  destruct (token handshake) as [|tok|]; [done| |done].
  destruct (JsString.falsy tok) eqn:Htok; [done|].
  destruct (verifyIdToken tok) as [decoded|] eqn:Hv; [|done].
  destruct (findUserByFirebaseUid (uid decoded)) as [| |user] eqn:Hl;
    [done|done|].
  destruct (isActive user) eqn:Ha; cbn [negb]; [|done].
  intros [= <-]. split; [done|]. exists tok, decoded, user.
  apply falsy_false in Htok. repeat (split; [done|]).
  unfold requireSocketAdmin. cbn [roles].
  destruct (admin decoded).
  - apply bool_decide_eq_true. by apply list_elem_of_singleton.
  - apply bool_decide_eq_false. by intros ?%elem_of_nil.
Qed.

(** Every way the middleware rejects, in the order of the gates, and each
    with its own code: a rate-limited address is rejected before the token
    is looked at; a token that is missing, not a string or empty is
    rejected before the identity provider is asked; an unverifiable token
    before the user is looked up; then a failing lookup, a missing user and
    an inactive user. *)
Theorem middleware_rejection_codes now connected handshake tbl :
  let result :=
    (socketAuthMiddleware verifyIdToken findUserByFirebaseUid
       now connected handshake tbl).1 in
  ((checkRateLimit now (address handshake) tbl).1 = false →
     result = Rejected "rate_limit_exceeded")
  ∧ ((checkRateLimit now (address handshake) tbl).1 = true →
     (∀ tok, token handshake = JsStr tok → tok = "") →
     result = Rejected "authentication_required")
  ∧ (∀ tok, (checkRateLimit now (address handshake) tbl).1 = true →
       token handshake = JsStr tok → tok ≠ "" →
       (verifyIdToken tok = None → result = Rejected "invalid_token")
       ∧ (∀ decoded, verifyIdToken tok = Some decoded →
            (findUserByFirebaseUid (uid decoded) = LookupThrows →
               result = Rejected "authentication_failed")
            ∧ (findUserByFirebaseUid (uid decoded) = LookupNone →
                 result = Rejected "user_not_found")
            ∧ (∀ user, findUserByFirebaseUid (uid decoded) = LookupFound user →
                 isActive user = false →
                 result = Rejected "account_inactive"))).
Proof.
  cbv zeta. unfold socketAuthMiddleware.
  destruct (checkRateLimit now (address handshake) tbl) as [allowed tbl'].
  cbn [fst]. split; [|split].
  - by intros ->.
  - intros -> Htoken. cbn [negb].
    destruct (token handshake) as [|tok|]; [done| |done].
    by rewrite (Htoken tok eq_refl).
  - intros tok -> -> Htok. cbn [negb]. apply falsy_false in Htok.
    rewrite Htok. split.
    + by intros ->.
    + intros decoded ->. split; [by intros ->|]. split; [by intros ->|].
      by intros user -> ->.
Qed.

End Middleware.

Section MiddlewareRuns.
Import Rooms Auth.

Lemma middleware_rejection_codes_witness :
  (socketAuthMiddleware (λ _, None) (λ _, LookupNone) 7 7
     {| address := "10.0.0.7"; token := JsOther true |} ∅).1
  = Rejected "authentication_required".
Proof.
  apply (proj1 (proj2 (middleware_rejection_codes (λ _, None) (λ _, LookupNone)
                         7 7 {| address := "10.0.0.7"; token := JsOther true |} ∅))).
  - reflexivity.
  - intros tok. discriminate.
Defined.

Lemma middleware_accepts_only_after_every_gate_witness :
  requireSocketAdmin
    (Some {| userId := "u1"; odv := "u1"; firebaseUid := "fb-1";
             roles := ["admin"]; connectedAt := 8; sd_rooms := ∅ |})
  = true.
Proof.
  destruct (middleware_accepts_only_after_every_gate
              (λ _, Some {| uid := "fb-1"; admin := true |})
              (λ _, LookupFound {| user_id := "u1"; isActive := true |})
              7 8 {| address := "10.0.0.7"; token := JsStr "t" |} ∅
              {| userId := "u1"; odv := "u1"; firebaseUid := "fb-1";
                 roles := ["admin"]; connectedAt := 8; sd_rooms := ∅ |})
    as (_ & tok & decoded & user & _ & _ & Hv & _ & _ & _ & _ & _ & _ & _ & Hadmin);
    [reflexivity|].
  rewrite Hadmin. by injection Hv as <-.
Defined.

(** A run of connection attempts from one address moves the table as the
    same run of bare admission checks does. *)
Lemma connect_all_table verify lookup ip arrivals : ∀ tbl,
  Forall (λ a, address a.2 = ip) arrivals →
  (connect_all verify lookup arrivals tbl).2
  = (attempt_all ip arrivals.*1 tbl).2.
Proof.
  induction arrivals as [|[now handshake] arrivals IH]; intros tbl Hip; [done|].
  apply Forall_cons in Hip as [Hhere Hip]. simpl in Hhere.
  cbn [connect_all attempt_all fmap list_fmap fst].
  pose proof (middleware_table verify lookup now now handshake tbl) as Ht.
  destruct (socketAuthMiddleware verify lookup now now handshake tbl)
    as [result tbl1]. simpl in Ht. subst tbl1. rewrite Hhere.
  destruct (checkRateLimit now ip tbl) as [allowed tbl1]. cbn [snd].
  specialize (IH tbl1 Hip).
  destruct (connect_all verify lookup arrivals tbl1) as [rest tbl2].
  destruct (attempt_all ip arrivals.*1 tbl1) as [rest' tbl2'].
  exact IH.
Qed.

(** Failed attempts use up the limit: after ten connection attempts from
    one address inside one window, whatever tokens they carried and
    whatever became of them, the next attempt from that address inside the
    window is rejected as rate limited, valid credential or not. *)
Theorem failed_attempts_use_up_the_limit
    verify lookup ip t0 first later tbl now connected handshake :
  (tbl !! ip = None ∨ ∃ entry, tbl !! ip = Some entry ∧ (t0 > resetAt entry)%Z) →
  address first = ip →
  length later = 9 →
  Forall (λ a, (a.1 ≤ t0 + 60000)%Z ∧ address a.2 = ip) later →
  address handshake = ip →
  (now ≤ t0 + 60000)%Z →
  (socketAuthMiddleware verify lookup now connected handshake
     (connect_all verify lookup ((t0, first) :: later) tbl).2).1
  = Rejected "rate_limit_exceeded".
Proof.
  intros Hfresh Hfirst Hlen Hlater Hip Hnow.
  rewrite (connect_all_table verify lookup ip).
  2:{ constructor; [done|]. eapply Forall_impl; [exact Hlater|]. by intros ? [_ ?]. }
  cbn [fmap list_fmap fst attempt_all].
  rewrite checkRateLimit_fresh by done.
  change RATE_LIMIT_WINDOW_MS with 60000%Z.
  destruct (attempt_all_within ip later.*1
              (<[ip := {| count := 1; resetAt := (t0 + 60000)%Z |}]> tbl)
              {| count := 1; resetAt := (t0 + 60000)%Z |})
    as [_ Hentry].
  { apply lookup_insert_eq. }
  { apply Forall_fmap. eapply Forall_impl; [exact Hlater|]. by intros ? [? _]. }
  { rewrite length_fmap, Hlen. simpl. unfold MAX_CONNECTIONS_PER_MINUTE. lia. }
  destruct (attempt_all ip later.*1 _) as [rest tbl'].
  cbn [snd] in *. rewrite length_fmap, Hlen in Hentry. simpl in Hentry.
  unfold socketAuthMiddleware, checkRateLimit. rewrite Hip, Hentry.
  cbn [count resetAt]. rewrite decide_False by lia.
  by rewrite decide_True.
Qed.

Lemma failed_attempts_use_up_the_limit_witness :
  let good := {| address := "10.0.0.7"; token := JsStr "good-token" |} in
  let bad := {| address := "10.0.0.7"; token := JsUndefined |} in
  let verify := λ tok : string,
    if decide (tok = "good-token")
    then Some {| uid := "fb-1"; admin := false |} else None in
  let lookup := λ _ : string, LookupFound {| user_id := "u1"; isActive := true |} in
  (socketAuthMiddleware verify lookup 50 50 good
     (connect_all verify lookup ((0%Z, bad) :: replicate 9 (1%Z, bad)) ∅).2).1
  = Rejected "rate_limit_exceeded".
Proof.
  intros good bad verify lookup.
  apply (failed_attempts_use_up_the_limit verify lookup "10.0.0.7").
  - left. reflexivity.
  - reflexivity.
  - reflexivity.
  - apply Forall_replicate. simpl. split; [lia|reflexivity].
  - reflexivity.
  - lia.
Defined.

End MiddlewareRuns.

(** * Rooms under their own name *)

Section Agreement.
Import JsString Rooms Gateway Scenario.

Implicit Types (rooms : gmap string RoomInfo) (data : SocketData) (w : World).

(** Rooms are found under their own name: in every registry that joins
    with a room type have built, a room is stored under the key of its own
    type and id, so [getRoomInfo] finds it from them, and the key of a room
    with a non-empty id parses back to them. *)
Theorem rooms_found_by_type_and_id sockets ops key room :
  Forall well_typed ops →
  w_rooms (run ops (initial sockets)) !! key = Some room →
  is_room_type (room_type room) = true
  ∧ getRoomInfo (room_type room) (room_id room)
      (w_rooms (run ops (initial sockets))) = Some room
  ∧ (room_id room ≠ "" →
     parseRoomId key
     = Some {| p_type := room_type room; p_id := room_id room |}).
Proof.
  intros Hops Hr.
  assert (registry_keyed (w_rooms (run ops (initial sockets)))) as Hok.
  { apply run_keyed; [done|]. apply registry_keyed_empty. }
  destruct (Hok _ _ Hr) as (Ht & Hkey).
  split; [done|]. unfold getRoomInfo. rewrite <-Hkey. split; [done|].
  intros Hid. rewrite Hkey.
  apply parse_getRoomId; auto using room_type_free, room_type_not_empty.
Qed.

Lemma rooms_found_by_type_and_id_witness :
  getRoomInfo "spot" "park"
    (w_rooms (run [Join 1 4 "spot" "park"; Resume 0 []]
                  (initial three_sockets)))
  = Some {| room_type := "spot"; room_id := "park";
            members := {[ "alice" ]}; createdAt := 4 |}.
Proof.
  apply (proj1 (proj2 (rooms_found_by_type_and_id three_sockets
                         [Join 1 4 "spot" "park"; Resume 0 []] "spot:park"
                         {| room_type := "spot"; room_id := "park";
                            members := {[ "alice" ]}; createdAt := 4 |}
                         ltac:(repeat constructor)
                         ltac:(vm_compute; reflexivity)))).
Defined.

End Agreement.

(** * Calls that do not overlap *)

Section Turns.
Import JsString Rooms Gateway Scenario.

Implicit Types (rooms : gmap string RoomInfo) (data : SocketData) (w : World).

Lemma connected_inv sock w :
  connected sock w = true →
  ∃ data, w_sockets w !! sock = Some data ∧ sock ∉ w_closed w.
Proof.
  unfold connected. intros [Hs Hc]%andb_true_iff.
  apply bool_decide_eq_true in Hs as [data Hs]. exists data. split; [done|].
  apply negb_true_iff, bool_decide_eq_false in Hc. done.
Qed.

Lemma resume_idle task order w :
  w_tasks w = [] → resume task order w = w.
Proof. intros Ht. unfold resume. by rewrite Ht. Qed.

Lemma completion_idle order : ∀ w,
  w_tasks w = [] → run (completion 0 order) w = w.
Proof.
  induction order as [|k rest IH]; intros w Ht; [done|].
  cbn [completion]. destruct (parseRoomId k); [|by apply IH].
  unfold run. cbn [foldl step].
  rewrite (resume_idle 0 [] w Ht), (resume_idle 0 rest w Ht). by apply IH.
Qed.

(** X22. Calls that do not overlap keep the capacity. Take a world with
    no call suspended whose registry is within capacity, every room
    stored under the key of its own type and id. A join with a room type,
    a leave, the whole loop of a disconnect, each run from its start to
    its end with nothing in between, and a sweep, each end with no call
    suspended and with a registry of the same kind. *)
Theorem capacity_kept_without_overlap w :
  w_tasks w = [] → registry_ok (w_rooms w) →
  (∀ sock now type id, is_room_type type = true →
     w_tasks (run [Join sock now type id; Resume 0 []] w) = []
     ∧ registry_ok (w_rooms (run [Join sock now type id; Resume 0 []] w)))
  ∧ (∀ sock type id,
       w_tasks (run [Leave sock type id; Resume 0 []] w) = []
       ∧ registry_ok (w_rooms (run [Leave sock type id; Resume 0 []] w)))
  ∧ (∀ sock order,
       w_tasks (run (Disconnect sock order :: completion 0 order) w) = []
       ∧ registry_ok
           (w_rooms (run (Disconnect sock order :: completion 0 order) w)))
  ∧ w_tasks (step w Sweep) = []
  ∧ registry_ok (w_rooms (step w Sweep)).
Proof.
  intros Ht Hok. split; [|split; [|split; [|split]]].
  - intros sock now type id Htype.
    destruct (connected sock w) eqn:Hc.
    + apply connected_inv in Hc as (data & Hs & Hc).
      pose proof (join_in_one_go w sock now type id data Hs Hc) as Hrun.
      rewrite Ht in Hrun. cbn [length] in Hrun. rewrite Hrun.
      cbn [w_tasks w_rooms]. split; [done|]. by apply joinRoom_ok.
    + unfold run. cbn [foldl step]. rewrite Hc.
      by rewrite resume_idle.
  - intros sock type id.
    destruct (connected sock w) eqn:Hc.
    + apply connected_inv in Hc as (data & Hs & Hc).
      pose proof (leave_in_one_go w sock type id data Hs Hc) as Hrun.
      rewrite Ht in Hrun. cbn [length] in Hrun. rewrite Hrun.
      cbn [w_tasks w_rooms fmap list_fmap]. split; [done|]. by apply leaveRoom_ok.
    + unfold run. cbn [foldl step]. rewrite Hc.
      by rewrite resume_idle.
  - intros sock order. unfold run. cbn [foldl step].
    destruct (w_sockets w !! sock) as [data|] eqn:Hs;
      [|fold (run (completion 0 order) w); by rewrite completion_idle].
    destruct (connected sock w && lists order (sd_rooms data)) eqn:Hgo;
      [|fold (run (completion 0 order) w); by rewrite completion_idle].
    apply andb_true_iff in Hgo as [_ Hlists].
    apply bool_decide_eq_true in Hlists as [Hnd Hset].
    fold (run (completion 0 order)
            (leaveAllRooms_advance sock ∅ order (close sock w))).
    rewrite (advance_in_one_go sock order ∅ (close sock w) data); try done.
    + cbn [w_tasks w_rooms close]. split; [done|]. by apply leaveAllRooms_in_ok.
    + rewrite Hset. apply set_eq. intros x. rewrite elem_of_difference.
      split; [|tauto]. intros Hx. split; [done|]. apply not_elem_of_empty.
  - done.
  - by apply cleanupEmptyRooms_ok.
Qed.

Lemma capacity_kept_without_overlap_witness :
  let w := run [Join 1 0 "battle" "b1"; Resume 0 [];
                Join 2 1 "battle" "b1"; Resume 0 []]
               (initial three_sockets) in
  w_tasks (run [Join 3 2 "battle" "b1"; Resume 0 []] w) = []
  ∧ registry_ok (w_rooms (run [Join 3 2 "battle" "b1"; Resume 0 []] w)).
Proof.
  intros w.
  destruct (capacity_kept_without_overlap w) as (Hjoin & _);
    [vm_compute; reflexivity| |by apply Hjoin].
  intros key room Hr.
  destruct (decide (key = "battle:b1")) as [->|Hne].
  - vm_compute in Hr. injection Hr as <-.
    split; [reflexivity|]. split; [reflexivity|].
    exists (Finite 2). split; [reflexivity|]. vm_compute. lia.
  - exfalso. change (w_rooms w) with
      (w_rooms (run [Join 1 0 "battle" "b1"; Resume 0 [];
                     Join 2 1 "battle" "b1"; Resume 0 []]
                    (initial three_sockets))) in Hr.
    assert (w_rooms (run [Join 1 0 "battle" "b1"; Resume 0 [];
                          Join 2 1 "battle" "b1"; Resume 0 []]
                         (initial three_sockets))
            = {[ "battle:b1" := {| room_type := "battle"; room_id := "b1";
                                   members := {[ "alice"; "bob" ]};
                                   createdAt := 0 |} ]}) as Heq
      by (vm_compute; reflexivity).
    rewrite Heq in Hr. apply lookup_singleton_Some in Hr as [Hk _]. by apply Hne.
Defined.

End Turns.

(** * Room names and the disconnect loop *)

Section Names.
Import JsString Rooms Gateway Scenario.

Implicit Types (rooms : gmap string RoomInfo) (data : SocketData).

(** Room names do not clash: two rooms with a room type share a key only
    when they have the same type and the same id, and no such key is the
    name of the personal room that [sendToUser] emits to. *)
Theorem typed_room_keys_are_distinct type1 id1 type2 id2 subject :
  is_room_type type1 = true → is_room_type type2 = true →
  (getRoomId type1 id1 = getRoomId type2 id2 ↔ type1 = type2 ∧ id1 = id2)
  ∧ getRoomId type1 id1 ≠ userRoom subject.
Proof.
  intros Ht1 Ht2. split.
  - split.
    + apply getRoomId_inj; by apply room_type_free.
    + by intros [-> ->].
  - change (userRoom subject) with (getRoomId "user" subject). intros Heq.
    apply getRoomId_inj in Heq as [-> _]; [|by apply room_type_free|done].
    discriminate Ht1.
Qed.

Lemma typed_room_keys_are_distinct_witness :
  getRoomId "spot" "user:u1" ≠ userRoom "u1".
Proof.
  apply (typed_room_keys_are_distinct "spot" "user:u1" "spot" "x" "u1");
    reflexivity.
Defined.

(** [getOrCreateRoom] finds or creates: the room it returns is the one
    stored under the key afterwards; a room that was there is returned as
    it is and the registry is not touched; no other key changes; and a
    second call, at whatever time, returns the same room and changes
    nothing. *)
Theorem getOrCreateRoom_finds_or_creates now later type id rooms :
  getRoomInfo type id (getOrCreateRoom now type id rooms).2
    = Some (getOrCreateRoom now type id rooms).1
  ∧ (∀ room, getRoomInfo type id rooms = Some room →
       getOrCreateRoom now type id rooms = (room, rooms))
  ∧ (getRoomInfo type id rooms = None →
       getOrCreateRoom now type id rooms
       = ({| room_type := type; room_id := id; members := ∅; createdAt := now |},
          <[getRoomId type id :=
              {| room_type := type; room_id := id;
                 members := ∅; createdAt := now |}]> rooms))
  ∧ (∀ key, key ≠ getRoomId type id →
       (getOrCreateRoom now type id rooms).2 !! key = rooms !! key)
  ∧ getOrCreateRoom later type id (getOrCreateRoom now type id rooms).2
    = getOrCreateRoom now type id rooms.
Proof.
  unfold getRoomInfo, getOrCreateRoom.
  destruct (rooms !! getRoomId type id) as [room|] eqn:E; cbn [fst snd].
  - rewrite E. repeat split; try done. by intros ? [= <-].
  - rewrite lookup_insert_eq. repeat split; try done.
    intros key Hne. by rewrite lookup_insert_ne.
Qed.

Lemma getOrCreateRoom_finds_or_creates_witness :
  getOrCreateRoom 9 "game" "g"
    {[ "game:g" := {| room_type := "game"; room_id := "g";
                      members := {[ "alice" ]}; createdAt := 2 |} ]}
  = ({| room_type := "game"; room_id := "g";
        members := {[ "alice" ]}; createdAt := 2 |},
     {[ "game:g" := {| room_type := "game"; room_id := "g";
                       members := {[ "alice" ]}; createdAt := 2 |} ]}).
Proof.
  apply (proj1 (proj2 (getOrCreateRoom_finds_or_creates 9 9 "game" "g" _))).
  vm_compute. reflexivity.
Defined.

(** [leaveAllRooms] in full, for any session: whatever the order in which
    the set of keys is iterated, the session keeps exactly the keys that
    [parseRoomId] rejects and nothing else of it changes; the subject is
    dropped from the rooms of the keys that parse and every other room is
    as before; and running it a second time changes nothing. *)
Theorem leaveAllRooms_result order data rooms :
  order ≡ₚ elements (sd_rooms data) →
  leaveAllRooms_in order data rooms = leaveAllRooms data rooms
  ∧ (leaveAllRooms data rooms).1
    = set_sd_rooms (sd_rooms (leaveAllRooms data rooms).1) data
  ∧ (∀ key, key ∈ sd_rooms (leaveAllRooms data rooms).1
            ↔ key ∈ sd_rooms data ∧ parseRoomId key = None)
  ∧ (∀ key, (leaveAllRooms data rooms).2 !! key
            = if decide (key ∈ sd_rooms data ∧ is_Some (parseRoomId key))
              then drop_member (odv data) <$> rooms !! key
              else rooms !! key)
  ∧ leaveAllRooms (leaveAllRooms data rooms).1 (leaveAllRooms data rooms).2
    = leaveAllRooms data rooms.
Proof.
  intros Hperm. split; [by apply leaveAllRooms_any_order|].
  assert (∀ d r,
    (∀ key, key ∈ sd_rooms (leaveAllRooms d r).1
            ↔ key ∈ sd_rooms d ∧ parseRoomId key = None)
    ∧ (∀ key, (leaveAllRooms d r).2 !! key
              = if decide (key ∈ sd_rooms d ∧ is_Some (parseRoomId key))
                then drop_member (odv d) <$> r !! key
                else r !! key)) as Hspec.
  { intros d r. unfold leaveAllRooms.
    destruct (leaveAllRooms_in_spec (elements (sd_rooms d)) d r)
      as (_ & Hkeys & Hrooms).
    { apply NoDup_elements. }
    { intros key. apply elem_of_elements. }
    split.
    - intros key. rewrite Hkeys, elem_of_elements.
      rewrite <-not_eq_None_Some. split.
      + intros [Hk Hno]. split; [done|].
        destruct (parseRoomId key); [|done]. exfalso. apply Hno. by split.
      + intros [Hk ->]. split; [done|]. by intros [_ ?].
    - intros key. rewrite Hrooms.
      destruct (decide (key ∈ sd_rooms d ∧ is_Some (parseRoomId key)))
        as [[Hk Hs]|Hno].
      + rewrite decide_True; [done|]. by rewrite elem_of_elements.
      + rewrite decide_False; [done|]. by rewrite elem_of_elements. }
  destruct (Hspec data rooms) as [Hkeys Hrooms].
  split; [apply leaveAllRooms_in_data|]. split; [done|]. split; [done|].
  destruct (Hspec (leaveAllRooms data rooms).1 (leaveAllRooms data rooms).2)
    as [Hkeys2 Hrooms2].
  pose proof (leaveAllRooms_in_data
                (elements (sd_rooms (leaveAllRooms data rooms).1))
                (leaveAllRooms data rooms).1 (leaveAllRooms data rooms).2) as Hd.
  fold (leaveAllRooms (leaveAllRooms data rooms).1 (leaveAllRooms data rooms).2)
    in Hd.
  destruct (leaveAllRooms (leaveAllRooms data rooms).1
                          (leaveAllRooms data rooms).2) as [d2 r2].
  destruct (leaveAllRooms data rooms) as [d1 r1]. cbn [fst snd] in *.
  f_equal.
  - rewrite Hd. assert (sd_rooms d2 = sd_rooms d1) as ->.
    { apply set_eq. intros key. rewrite Hkeys2, Hkeys. tauto. }
    by destruct d1.
  - apply map_eq. intros key. rewrite Hrooms2. rewrite decide_False; [done|].
    intros [[_ Hnone]%Hkeys Hs]. rewrite Hnone in Hs. by destruct Hs.
Qed.

Lemma leaveAllRooms_result_witness :
  leaveAllRooms_in ["battle:9"; "spot:park"]
    (set_sd_rooms {[ "spot:park"; "battle:9" ]} (session "alice")) ∅
  = leaveAllRooms
      (set_sd_rooms {[ "spot:park"; "battle:9" ]} (session "alice")) ∅.
Proof.
  apply leaveAllRooms_result.
  vm_compute. first [reflexivity | apply Permutation_swap].
Defined.

End Names.
